(** * Pipline: a model of the integer streaming pipeline and its properties

    The development follows [main.go]: the overwrite ring buffer
    ([RingBuffer], [NewRingBuffer], [Push], [Flush]), the two filter
    stages ([filterNegative], [filterNotDivisibleBy3]), the buffering
    stage ([bufferAndSend]) and the select loop of [main].

    - Data.  Go's [int] is [Z], with the 64-bit wrap-around of [+]
      written out; a slice is a [list Z] whose every access checks its
      bounds; a run-time panic is a result of its own.  The loop of
      [Flush] has no bound in the source: its model takes the number of
      iterations it may make and says so when they do not suffice.
    - Goroutines.  Each goroutine is modelled on its own, by the loop it
      runs: one iteration is a function of the [select] case that fires,
      a schedule is a list of such cases, and a run is defined for the
      schedules whose every case is ready when it is chosen.  A channel
      is what its receiver can take from it.  What a goroutine does to
      its output is kept as a trace; a send is recorded as performed,
      that is, the receiver is taken to accept it.  When the ticker fires
      is for the schedule to say.
    - The reader of standard input and the printing of the banners are
      left out. *)

From Stdlib Require Import ZArith Lia List Bool.
From Stdlib Require String.
From stdpp Require Import base list.
Import ListNotations.

Local Open Scope Z_scope.

(** ** Results of Go code: a value, a run-time panic, or no answer within
    the iterations allowed to a loop *)

Inductive panic : Type :=
| IndexOutOfRange    (* slice index outside [0, len) *)
| DivideByZero       (* integer divide (or remainder) by zero *)
| MakeSliceLen.      (* make([]int, n) with n < 0, or with capacity < n *)

Inductive outcome (A : Type) : Type :=
| Ok (a : A)
| Panic (p : panic)
| OutOfFuel.

Arguments Ok {A} a.
Arguments Panic {A} p.
Arguments OutOfFuel {A}.

Definition bind {A B : Type} (m : outcome A) (k : A -> outcome B) : outcome B :=
  match m with
  | Ok a => k a
  | Panic p => Panic p
  | OutOfFuel => OutOfFuel
  end.

Notation "'do' x <- m ; k" := (bind m (fun x => k))
  (at level 10, x name, m at level 100, k at level 200).

(** ** Go's [int] (64 bits, two's complement) *)

Definition min_int : Z := - 2 ^ 63.
Definition max_int : Z := 2 ^ 63 - 1.

Definition is_int (z : Z) : Prop := min_int <= z <= max_int.

(** Reduction of a mathematical integer to the 64-bit signed range. *)
Definition wrap (z : Z) : Z := (z + 2 ^ 63) mod 2 ^ 64 - 2 ^ 63.

(** [a + b] on [int]: silent wrap-around. *)
Definition int_add (a b : Z) : Z := wrap (a + b).

(** [a % b] on [int]: truncated remainder, panics when [b] is zero. *)
Definition int_rem (a b : Z) : outcome Z :=
  if b =? 0 then Panic DivideByZero else Ok (Z.rem a b).

(** ** Slices of [int] *)

Definition in_bounds (s : list Z) (i : Z) : bool :=
  (0 <=? i) && (i <? Z.of_nat (length s)).

(** [make([]int, n)].  Only the panic on a negative length is modelled:
    for [n >= 0] the allocation is taken to succeed. *)
Definition make_slice (n : Z) : outcome (list Z) :=
  if n <? 0 then Panic MakeSliceLen else Ok (replicate (Z.to_nat n) 0).

(** [make([]int, n, c)]: length [n], room for [c] elements. *)
Definition make_slice_cap (n c : Z) : outcome (list Z) :=
  if (n <? 0) || (c <? n) then Panic MakeSliceLen
  else Ok (replicate (Z.to_nat n) 0).

(** [s[i]] as an expression *)
Definition slice_get (s : list Z) (i : Z) : outcome Z :=
  if in_bounds s i then
    match s !! Z.to_nat i with
    | Some v => Ok v
    | None => Panic IndexOutOfRange
    end
  else Panic IndexOutOfRange.

(** [s[i] = v] *)
Definition slice_set (s : list Z) (i : Z) (v : Z) : outcome (list Z) :=
  if in_bounds s i then Ok (<[Z.to_nat i := v]> s) else Panic IndexOutOfRange.

(** ** The ring buffer *)

(** [type RingBuffer struct].  The mutex [mu] serialises [Push] and
    [Flush]; each of them is modelled as one atomic state transformer. *)
Record RingBuffer : Type := mkRingBuffer {
  data : list Z;
  head : Z;
  tail : Z;
  size : Z
}.

(** [func NewRingBuffer(size int) *RingBuffer] *)
Definition NewRingBuffer (sz : Z) : outcome RingBuffer :=
  do d <- make_slice sz ;
  Ok {| data := d; head := 0; tail := 0; size := sz |}.

(** [func (rb *RingBuffer) Push(val int)] *)
Definition Push (val : Z) (rb : RingBuffer) : outcome RingBuffer :=
  do d <- slice_set (data rb) (tail rb) val ;
  do t <- int_rem (int_add (tail rb) 1) (size rb) ;
  if t =? head rb then
    do h <- int_rem (int_add (head rb) 1) (size rb) ;
    Ok {| data := d; head := h; tail := t; size := size rb |}
  else
    Ok {| data := d; head := head rb; tail := t; size := size rb |}.

(** The loop [for rb.head != rb.tail { ... }] of [Flush]; [fuel] bounds
    the number of iterations, [acc] is the slice built so far. *)
Fixpoint Flush_loop (fuel : nat) (rb : RingBuffer) (acc : list Z)
  : outcome (list Z * RingBuffer) :=
  if head rb =? tail rb then Ok (acc, rb)
  else
    match fuel with
    | O => OutOfFuel
    | S fuel' =>
        do v <- slice_get (data rb) (head rb) ;
        do h <- int_rem (int_add (head rb) 1) (size rb) ;
        Flush_loop fuel'
          {| data := data rb; head := h; tail := tail rb; size := size rb |}
          (acc ++ [v])
    end.

(** [func (rb *RingBuffer) Flush() []int].  The [nil] returned for an
    empty buffer and the empty slice are both the empty sequence. *)
Definition Flush (fuel : nat) (rb : RingBuffer) : outcome (list Z * RingBuffer) :=
  if head rb =? tail rb then Ok ([], rb)
  else
    do acc <- make_slice_cap 0 (size rb) ;
    Flush_loop fuel rb acc.

(** Pushing a sequence of values, first to last. *)
Fixpoint push_all (vals : list Z) (rb : RingBuffer) : outcome RingBuffer :=
  match vals with
  | [] => Ok rb
  | v :: vs => do rb' <- Push v rb ; push_all vs rb'
  end.

(** ** Abstract view of a ring buffer *)

(** Successor of a slot index in a buffer of [C] slots. *)
Definition next (C i : Z) : Z := if i + 1 =? C then 0 else i + 1.

(** The [n] slots read from slot [h] on, wrapping at [C]. *)
Fixpoint window (d : list Z) (C h : Z) (n : nat) : list Z :=
  match n with
  | O => []
  | S n' => default 0 (d !! Z.to_nat h) :: window d C (next C h) n'
  end.

(** Number of live (flushable) values. *)
Definition live_count (rb : RingBuffer) : Z := (tail rb - head rb) mod size rb.

(** The live values, oldest first: slots [head], [head+1], ... up to
    [tail] excluded. *)
Definition contents (rb : RingBuffer) : list Z :=
  window (data rb) (size rb) (head rb) (Z.to_nat (live_count rb)).

(** The last [k] elements of a list (all of it when it is shorter). *)
Definition lastn {A : Type} (k : nat) (l : list A) : list A :=
  drop (length l - k)%nat l.

(** The buffer once drained: [head] has caught up with [tail]. *)
Definition emptied (rb : RingBuffer) : RingBuffer :=
  {| data := data rb; head := tail rb; tail := tail rb; size := size rb |}.

(** Slot reached from slot [h] after [k] steps, for [k <= C]. *)
Definition slot (C h k : Z) : Z := if h + k <? C then h + k else h + k - C.

(** Representation invariant of a buffer of capacity [C]. *)
Record wf (C : Z) (rb : RingBuffer) : Prop := mkWf {
  wf_size : size rb = C;
  wf_len : Z.of_nat (length (data rb)) = C;
  wf_head : 0 <= head rb < C;
  wf_tail : 0 <= tail rb < C
}.

(** States of a buffer created with capacity [C] after any sequence of
    [Push] and [Flush]. *)
Inductive reachable (C : Z) : RingBuffer -> Prop :=
| reach_new rb :
    NewRingBuffer C = Ok rb -> reachable C rb
| reach_push v rb rb' :
    reachable C rb -> Push v rb = Ok rb' -> reachable C rb'
| reach_flush fuel rb vs rb' :
    reachable C rb -> Flush fuel rb = Ok (vs, rb') -> reachable C rb'.

(** ** Channels, as one goroutine sees them *)

(** A channel from the side of its receiver: the values its senders hand
    over, in order, and whether it is closed once they are taken. *)
Record chan (A : Type) : Type := mkChan {
  pending : list A;
  closed : bool
}.

Arguments mkChan {A} pending closed.
Arguments pending {A} c.
Arguments closed {A} c.

(** [<-c]: the next value; the zero value of the element type, again and
    again, once the channel is closed and drained; [None] while the
    receive blocks. *)
Definition recv {A : Type} (zero : A) (c : chan A) : option (A * chan A) :=
  match pending c with
  | v :: vs => Some (v, mkChan vs (closed c))
  | [] => if closed c then Some (zero, c) else None
  end.

(** A channel on which nothing arrives. *)
Definition silent {A : Type} : chan A := mkChan [] false.

(** What a goroutine does to its output channel. *)
Inductive action : Type :=
| Send (n : Z)     (* out <- n *)
| Close.           (* close(out) *)

(** The [case] of a stage's [select] that fires in one iteration; the
    filter stages have no ticker case. *)
Inductive select_case : Type :=
| CaseIn           (* case n := <-in *)
| CaseTick         (* case <-ticker.C *)
| CaseDone.        (* case <-done *)

Inductive status : Type :=
| Running
| Returned.

(** The values sent in a trace, and the channel a trace makes for the
    next stage. *)
Fixpoint sent (tr : list action) : list Z :=
  match tr with
  | [] => []
  | Send n :: tr' => n :: sent tr'
  | Close :: tr' => sent tr'
  end.

Definition is_close (a : action) : bool :=
  match a with
  | Close => true
  | Send _ => false
  end.

Definition downstream (tr : list action) : chan Z :=
  mkChan (sent tr) (existsb is_close tr).

(** ** The filter stages *)

(** The condition of [filterNegative]: [n >= 0]. *)
Definition isNonNegative (n : Z) : bool := 0 <=? n.

(** The condition of [filterNotDivisibleBy3]: [n != 0 && n%3 == 0]. *)
Definition keepMultipleOfThreeExcludingZero (n : Z) : bool :=
  negb (n =? 0) && (Z.rem n 3 =? 0).

(** A filter goroutine: its two input channels, the operations it has
    performed on [out], and whether it has returned. *)
Record stage : Type := mkStage {
  st_in : chan Z;
  st_done : chan bool;
  st_out : list action;
  st_status : status
}.

Section Filter.

(** The two filter functions differ only in the condition under which a
    received value is forwarded. *)
Variable keep : Z -> bool.

(** One iteration of [for { select { ... } }].  [None]: the goroutine
    has returned, or the chosen case is not ready.  [return] runs the
    deferred [close(out)]. *)
Definition filter_iter (pick : select_case) (s : stage) : option stage :=
  match st_status s with
  | Returned => None
  | Running =>
      match pick with
      | CaseIn =>
          match recv 0 (st_in s) with
          | Some (n, c) =>
              Some (mkStage c (st_done s)
                      (st_out s ++ (if keep n then [Send n] else []))
                      Running)
          | None => None
          end
      | CaseDone =>
          match recv false (st_done s) with
          | Some (_, d) =>
              Some (mkStage (st_in s) d (st_out s ++ [Close]) Returned)
          | None => None
          end
      | CaseTick => None
      end
  end.

(** A run of the loop under a schedule of select outcomes; [None] when
    the schedule is not one the goroutine can follow. *)
Fixpoint filter_run (picks : list select_case) (s : stage) : option stage :=
  match picks with
  | [] => Some s
  | p :: ps =>
      match filter_iter p s with
      | Some s' => filter_run ps s'
      | None => None
      end
  end.

End Filter.

(** [func filterNegative(in <-chan int, out chan<- int, done <-chan bool)] *)
Definition filterNegative := filter_run isNonNegative.

(** [func filterNotDivisibleBy3(in <-chan int, out chan<- int, done <-chan bool)] *)
Definition filterNotDivisibleBy3 := filter_run keepMultipleOfThreeExcludingZero.

(** A stage about to enter its loop. *)
Definition start (in_ : chan Z) (done : chan bool) : stage :=
  mkStage in_ done [] Running.

(** ** The buffering stage *)

Definition defaultBufferSize : Z := 5.

Record agg : Type := mkAgg {
  ag_in : chan Z;
  ag_done : chan bool;
  ag_buffer : RingBuffer;
  ag_out : list action;
  ag_status : status
}.

(** Entry of [bufferAndSend]: [buffer := NewRingBuffer(bufferSize)].
    The ticker is taken to have been made, that is, [flushInterval] to be
    positive, as it is in the call of [main]; when it fires is left to the
    schedule. *)
Definition bufferAndSend_start (in_ : chan Z) (done : chan bool) (bufferSize : Z)
  : outcome agg :=
  do rb <- NewRingBuffer bufferSize ;
  Ok (mkAgg in_ done rb [] Running).

(** One iteration of the loop of [bufferAndSend]. *)
Definition bufferAndSend_iter (fuel : nat) (pick : select_case) (s : agg)
  : option (outcome agg) :=
  match ag_status s with
  | Returned => None
  | Running =>
      match pick with
      | CaseIn =>
          match recv 0 (ag_in s) with
          | Some (n, c) =>
              Some (do rb <- Push n (ag_buffer s) ;
                    Ok (mkAgg c (ag_done s) rb (ag_out s) Running))
          | None => None
          end
      | CaseTick =>
          Some (do r <- Flush fuel (ag_buffer s) ;
                Ok (mkAgg (ag_in s) (ag_done s) (snd r)
                      (ag_out s ++ map Send (fst r)) Running))
      | CaseDone =>
          match recv false (ag_done s) with
          | Some (_, d) =>
              Some (do r <- Flush fuel (ag_buffer s) ;
                    Ok (mkAgg (ag_in s) d (snd r)
                          (ag_out s ++ map Send (fst r) ++ [Close]) Returned))
          | None => None
          end
      end
  end.

Fixpoint bufferAndSend_run (fuel : nat) (picks : list select_case) (s : agg)
  : option (outcome agg) :=
  match picks with
  | [] => Some (Ok s)
  | p :: ps =>
      match bufferAndSend_iter fuel p s with
      | Some (Ok s') => bufferAndSend_run fuel ps s'
      | Some (Panic e) => Some (Panic e)
      | Some OutOfFuel => Some OutOfFuel
      | None => None
      end
  end.

(** ** The loop of [main] *)

(** The signals [main] asks to be notified of.  [interrupt] carries
    [os.Signal] values, whose zero value is [nil] ([None]). *)
Inductive signal : Type :=
| SIGINT
| SIGTERM.

Inductive main_case : Type :=
| CaseOut          (* case num := <-pipelineOut *)
| CaseInterrupt.   (* case <-interrupt *)

Inductive main_action : Type :=
| Printf (num : Z)     (* the line printed for a received value *)
| PrintlnBye           (* the farewell line *)
| SendDone (b : bool)  (* done <- b *)
| CloseDone.           (* close(done) *)

Record mainst : Type := mkMain {
  m_pipelineOut : chan Z;
  m_interrupt : chan (option signal);
  m_trace : list main_action;
  m_status : status
}.

(** One iteration of the loop at the end of [main]; [return] runs the
    deferred [close(done)]. *)
Definition main_iter (pick : main_case) (s : mainst) : option mainst :=
  match m_status s with
  | Returned => None
  | Running =>
      match pick with
      | CaseOut =>
          match recv 0 (m_pipelineOut s) with
          | Some (num, c) =>
              Some (mkMain c (m_interrupt s) (m_trace s ++ [Printf num]) Running)
          | None => None
          end
      | CaseInterrupt =>
          match recv None (m_interrupt s) with
          | Some (_, i) =>
              Some (mkMain (m_pipelineOut s) i
                      (m_trace s ++ [PrintlnBye; SendDone true; CloseDone])
                      Returned)
          | None => None
          end
      end
  end.

Fixpoint main_run (picks : list main_case) (s : mainst) : option mainst :=
  match picks with
  | [] => Some s
  | p :: ps =>
      match main_iter p s with
      | Some s' => main_run ps s'
      | None => None
      end
  end.

(** ** Observations on runs *)

(** The first [k] values a receiver takes from a channel. *)
Fixpoint arrivals (k : nat) (c : chan Z) : list Z :=
  match k with
  | O => []
  | S k' =>
      match recv 0 c with
      | Some (v, c') => v :: arrivals k' c'
      | None => []
      end
  end.

Definition is_case_in (p : select_case) : bool :=
  match p with
  | CaseIn => true
  | _ => false
  end.

(** Number of receives from upstream in a schedule. *)
Definition count_in (picks : list select_case) : nat :=
  length (List.filter is_case_in picks).

(** The deferred [close(out)] of a goroutine that has returned. *)
Definition closing (st : status) : list action :=
  match st with
  | Returned => [Close]
  | Running => []
  end.

(** What [main] does on its way out. *)
Definition farewell (st : status) : list main_action :=
  match st with
  | Returned => [PrintlnBye; SendDone true; CloseDone]
  | Running => []
  end.





(** ** Goroutines that cannot move *)




(** ** The reader of standard input *)

(** What the goroutine that reads standard input does. *)
Inductive reader_action : Type :=
| ReadSend (num : Z)   (* input <- num *)
| ReadBadInput         (* the line printed for a line that is no integer *)
| ReadInputDone        (* the line printed when the input has ended *)
| ReadClose.           (* close(input) *)

Section Reader.

(** [strings.TrimSpace] and [strconv.Atoi] belong to Go's library: they
    are taken as given, [Atoi] returning [None] where it reports an
    error. *)
Variable TrimSpace : String.string -> String.string.
Variable Atoi : String.string -> option Z.

(** The loop [for scanner.Scan() { ... }] over the lines the scanner
    yields. *)
Fixpoint reader_loop (lines : list String.string) : list reader_action :=
  match lines with
  | [] => []
  | l :: ls =>
      match Atoi (TrimSpace l) with
      | Some num => ReadSend num :: reader_loop ls
      | None => ReadBadInput :: reader_loop ls
      end
  end.

(** The goroutine: the loop, the closing line, and the deferred
    [close(input)]. *)
Definition reader (lines : list String.string) : list reader_action :=
  reader_loop lines ++ [ReadInputDone; ReadClose].

End Reader.

Fixpoint reader_sent (tr : list reader_action) : list Z :=
  match tr with
  | [] => []
  | ReadSend num :: tr' => num :: reader_sent tr'
  | _ :: tr' => reader_sent tr'
  end.

Definition is_bad_input (a : reader_action) : bool :=
  match a with
  | ReadBadInput => true
  | _ => false
  end.

Definition is_read_close (a : reader_action) : bool :=
  match a with
  | ReadClose => true
  | _ => false
  end.

(** The channel [input] as the reader makes it for the first stage. *)
Definition reader_input (tr : list reader_action) : chan Z :=
  mkChan (reader_sent tr) (existsb is_read_close tr).

(** ** More observations on runs *)

(** The channel left after [k] receives. *)
Fixpoint after (k : nat) (c : chan Z) : chan Z :=
  match k with
  | O => c
  | S k' =>
      match recv 0 c with
      | Some (_, c') => after k' c'
      | None => c
      end
  end.

(** The schedule of the buffering stage in which the values of each
    window arrive and the ticker then fires. *)
Definition tick_windows (ws : list (list Z)) : list select_case :=
  concat (map (fun w => repeat CaseIn (length w) ++ [CaseTick]) ws).

(** The condition of the first filter and that of the second. *)
Definition passes_both (n : Z) : bool :=
  isNonNegative n && keepMultipleOfThreeExcludingZero n.

Definition is_case_out (p : main_case) : bool :=
  match p with
  | CaseOut => true
  | CaseInterrupt => false
  end.

(** Number of receives from [pipelineOut] in a schedule of [main]. *)
Definition count_out (picks : list main_case) : nat :=
  length (List.filter is_case_out picks).

(** * Proofs *)

(** Case analysis on every integer comparison in sight, then linear
    arithmetic; [next] and [slot] are unfolded first. *)
Ltac cmp_lia :=
  unfold next, slot in *;
  repeat match goal with
         | H : context [if _ then _ else _] |- _ => revert H
         end;
  repeat match goal with
         | |- context [?a =? ?b] => destruct (Z.eqb_spec a b)
         | |- context [?a <=? ?b] => destruct (Z.leb_spec a b)
         | |- context [?a <? ?b] => destruct (Z.ltb_spec a b)
         end;
  lia.

(** ** Integers and slices *)

Lemma wrap_id z : is_int z -> wrap z = z.
Proof.
  unfold is_int, wrap, min_int, max_int. intros Hz.
  rewrite Z.mod_small; lia.
Qed.

Lemma next_range C i : 1 <= C -> 0 <= i < C -> 0 <= next C i < C.
Proof. intros HC Hi. cmp_lia. Qed.

Lemma int_rem_next C i :
  1 <= C <= max_int -> 0 <= i < C ->
  int_rem (int_add i 1) C = Ok (next C i).
Proof.
  intros HC Hi. unfold int_rem, int_add, next.
  rewrite wrap_id by (unfold is_int, min_int, max_int in *; lia).
  destruct (Z.eqb_spec C 0); [lia|].
  destruct (Z.eqb_spec (i + 1) C) as [->|Hne].
  - now rewrite Z.rem_same by lia.
  - now rewrite Z.rem_small by lia.
Qed.

Lemma in_bounds_true (s : list Z) i :
  0 <= i < Z.of_nat (length s) -> in_bounds s i = true.
Proof.
  intros Hi. unfold in_bounds.
  apply andb_true_iff; split; [apply Z.leb_le | apply Z.ltb_lt]; lia.
Qed.

Lemma slice_get_ok (s : list Z) i :
  0 <= i < Z.of_nat (length s) ->
  slice_get s i = Ok (default 0 (s !! Z.to_nat i)).
Proof.
  intros Hi. unfold slice_get. rewrite in_bounds_true by done.
  destruct (lookup_lt_is_Some_2 s (Z.to_nat i)) as [x Hx]; [lia|].
  now rewrite Hx.
Qed.

Lemma slice_set_ok (s : list Z) i v :
  0 <= i < Z.of_nat (length s) ->
  slice_set s i v = Ok (<[Z.to_nat i := v]> s).
Proof. intros Hi. unfold slice_set. now rewrite in_bounds_true. Qed.

(** ** Arithmetic of slot indices *)

Lemma mod_piecewise C h t :
  0 <= h < C -> 0 <= t < C ->
  (t - h) mod C = if h <=? t then t - h else t - h + C.
Proof.
  intros Hh Ht. destruct (Z.leb_spec h t).
  - apply Z.mod_small. lia.
  - symmetry. apply (Z.mod_unique_pos _ _ (-1)); lia.
Qed.

Lemma iter_next C h (k : nat) :
  1 <= C -> 0 <= h < C -> Z.of_nat k <= C ->
  Nat.iter k (next C) h = slot C h (Z.of_nat k).
Proof.
  intros HC Hh. induction k as [|k IH]; intros Hk.
  - unfold slot. simpl. rewrite Z.add_0_r. destruct (Z.ltb_spec h C); lia.
  - simpl Nat.iter. rewrite IH by lia. cmp_lia.
Qed.

Lemma iter_next_range C h (k : nat) :
  1 <= C -> 0 <= h < C -> 0 <= Nat.iter k (next C) h < C.
Proof.
  intros HC Hh. induction k as [|k IH]; simpl; [done|].
  now apply next_range.
Qed.

(** ** Windows of slots *)

Lemma length_window d C h n : length (window d C h n) = n.
Proof. revert h. induction n as [|n IH]; intros h; simpl; [done|]. now rewrite IH. Qed.

Lemma window_app d C h n m :
  window d C h (n + m) = window d C h n ++ window d C (Nat.iter n (next C) h) m.
Proof.
  revert h. induction n as [|n IH]; intros h; [done|].
  cbn [Nat.add window app]. rewrite IH. f_equal. f_equal.
  now rewrite Nat.iter_succ_r.
Qed.

Lemma window_insert_frame d C h n t v :
  1 <= C -> 0 <= h < C -> 0 <= t ->
  (forall k : nat, (k < n)%nat -> Nat.iter k (next C) h <> t) ->
  window (<[Z.to_nat t := v]> d) C h n = window d C h n.
Proof.
  intros HC. revert h. induction n as [|n IH]; intros h Hh Ht Hfree; [done|].
  cbn [window]. f_equal.
  - rewrite list_lookup_insert_ne; [done|].
    specialize (Hfree O ltac:(lia)). simpl in Hfree. lia.
  - apply IH; [now apply next_range | done |].
    intros k Hk. rewrite <- Nat.iter_succ_r. apply Hfree. lia.
Qed.

(** ** Facts that hold for any buffer *)

Lemma length_contents rb : length (contents rb) = Z.to_nat (live_count rb).
Proof. apply length_window. Qed.

Lemma lastn_all {A} k (l : list A) : (length l <= k)%nat -> lastn k l = l.
Proof. intros H. unfold lastn. replace (length l - k)%nat with O by lia. done. Qed.

Lemma make_slice_cap_0 c : 0 <= c -> make_slice_cap 0 c = Ok [].
Proof.
  intros Hc. unfold make_slice_cap. simpl.
  destruct (Z.ltb_spec c 0); [lia|]. reflexivity.
Qed.

(** More fuel never changes the result of a loop that has returned. *)
Lemma Flush_loop_mono fuel fuel' rb acc r :
  Flush_loop fuel rb acc = Ok r -> (fuel <= fuel')%nat ->
  Flush_loop fuel' rb acc = Ok r.
Proof.
  revert fuel' rb acc. induction fuel as [|fuel IH]; intros fuel' rb acc H Hle.
  - simpl in H. destruct (head rb =? tail rb) eqn:E; [|discriminate].
    destruct fuel'; simpl; now rewrite E.
  - destruct fuel' as [|fuel']; [lia|].
    simpl in *. destruct (head rb =? tail rb); [done|].
    destruct (slice_get (data rb) (head rb)); simpl in *; try discriminate.
    destruct (int_rem (int_add (head rb) 1) (size rb)); simpl in *; try discriminate.
    apply IH; [done | lia].
Qed.

Lemma NewRingBuffer_ok C :
  0 <= C ->
  NewRingBuffer C =
  Ok {| data := replicate (Z.to_nat C) 0; head := 0; tail := 0; size := C |}.
Proof.
  intros HC. unfold NewRingBuffer, make_slice.
  destruct (Z.ltb_spec C 0); [lia|]. reflexivity.
Qed.

(** ** [Push] and [Flush] on a buffer of capacity [C] *)

Section Capacity.

Variable C : Z.
Hypothesis HC : 1 <= C <= max_int.

Lemma live_count_piecewise rb :
  wf C rb ->
  live_count rb =
  if head rb <=? tail rb then tail rb - head rb else tail rb - head rb + C.
Proof.
  intros [Hs _ Hh Ht]. unfold live_count. rewrite Hs. now apply mod_piecewise.
Qed.

Lemma live_count_range rb : wf C rb -> 0 <= live_count rb <= C - 1.
Proof.
  intros Hwf. rewrite live_count_piecewise by done.
  destruct Hwf as [_ _ Hh Ht]. destruct (Z.leb_spec (head rb) (tail rb)); lia.
Qed.

(** The write of [Push] leaves the [n] slots from [h] on as they are and
    puts [v] right after them, provided [t] is that next slot. *)
Lemma window_push d h t v (n : nat) :
  Z.of_nat (length d) = C -> 0 <= h < C -> 0 <= t < C ->
  Z.of_nat n < C -> slot C h (Z.of_nat n) = t ->
  window (<[Z.to_nat t := v]> d) C h (n + 1) = window d C h n ++ [v].
Proof.
  intros Hl Hh Ht Hn Hslot. rewrite window_app. f_equal.
  - apply window_insert_frame; [lia | lia | lia |].
    intros k Hk. rewrite iter_next by lia. cmp_lia.
  - cbn [window]. rewrite iter_next, Hslot by lia.
    now rewrite list_lookup_insert_eq by lia.
Qed.

Lemma Push_spec rb v :
  wf C rb ->
  exists rb',
    Push v rb = Ok rb' /\ wf C rb' /\
    contents rb' = lastn (Z.to_nat (C - 1)) (contents rb ++ [v]).
Proof.
  intros Hwf.
  pose proof (live_count_piecewise rb Hwf) as Hn.
  destruct rb as [d h t s]. destruct Hwf as [Hs Hl Hh Ht]. simpl in *. subst s.
  unfold Push. simpl.
  rewrite slice_set_ok by lia. simpl.
  rewrite int_rem_next by lia. simpl.
  destruct (Z.eqb_spec (next C t) h) as [Hfull|Hfree].
  - (* the advanced tail meets head: head gives way *)
    rewrite int_rem_next by lia. simpl.
    eexists. split; [reflexivity|]. split.
    { constructor; simpl; rewrite ?length_insert; try apply next_range; lia. }
    unfold contents. simpl. rewrite Hn.
    unfold live_count. simpl.
    rewrite mod_piecewise by (try apply next_range; lia).
    assert (Hold : (if h <=? t then t - h else t - h + C) = C - 1) by cmp_lia.
    rewrite Hold.
    destruct (Z.eq_dec C 1) as [->|HC1].
    { assert (h = 0) by lia. assert (t = 0) by lia. subst. reflexivity. }
    assert (Hnew : (if next C h <=? next C t then next C t - next C h
                    else next C t - next C h + C) = C - 1) by cmp_lia.
    rewrite Hnew.
    set (m := Z.to_nat (C - 2)).
    replace (Z.to_nat (C - 1)) with (S m) by lia.
    replace (window (<[Z.to_nat t:=v]> d) C (next C h) (S m))
      with (window (<[Z.to_nat t:=v]> d) C (next C h) (m + 1))
      by (f_equal; lia).
    rewrite window_push; try (apply next_range; lia); try lia; [|cmp_lia].
    cbn [window]. unfold lastn.
    cbn [app length]. rewrite length_app, length_window. simpl length.
    replace (S (m + 1) - S m)%nat with 1%nat by lia.
    reflexivity.
  - (* there is room left *)
    eexists. split; [reflexivity|]. split.
    { constructor; simpl; rewrite ?length_insert; try apply next_range; lia. }
    unfold contents. simpl. rewrite Hn.
    unfold live_count. simpl.
    rewrite mod_piecewise by (try apply next_range; lia).
    set (n := if h <=? t then t - h else t - h + C).
    assert (Hrange : 0 <= n < C - 1) by (subst n; cmp_lia).
    assert (Hnew : (if h <=? next C t then next C t - h
                    else next C t - h + C) = n + 1) by (subst n; cmp_lia).
    rewrite Hnew.
    rewrite lastn_all by (rewrite length_app, length_window; simpl; lia).
    replace (Z.to_nat (n + 1)) with (Z.to_nat n + 1)%nat by lia.
    apply window_push; try lia. subst n. cmp_lia.
Qed.

Lemma wf_emptied rb : wf C rb -> wf C (emptied rb).
Proof. intros [Hs Hl Hh Ht]. now constructor. Qed.

Lemma live_count_emptied rb : wf C rb -> live_count (emptied rb) = 0.
Proof.
  intros Hwf. rewrite live_count_piecewise by now apply wf_emptied.
  simpl. rewrite Z.leb_refl. lia.
Qed.

Lemma Flush_loop_spec (n : nat) :
  forall fuel rb acc,
    wf C rb -> Z.to_nat (live_count rb) = n -> (n <= fuel)%nat ->
    Flush_loop fuel rb acc = Ok (acc ++ contents rb, emptied rb).
Proof.
  induction n as [|n IH]; intros fuel rb acc Hwf Hn Hfuel.
  - pose proof (live_count_piecewise rb Hwf) as Hp.
    unfold contents. rewrite Hn. simpl. rewrite app_nil_r.
    destruct rb as [d h t s]. destruct Hwf as [Hs Hl Hh Ht]. simpl in *.
    assert (h = t) as -> by (destruct (Z.leb_spec h t); lia).
    unfold emptied. simpl.
    destruct fuel; simpl; now rewrite Z.eqb_refl.
  - pose proof (live_count_piecewise rb Hwf) as Hp.
    destruct fuel as [|fuel]; [lia|].
    unfold contents. rewrite Hn.
    destruct rb as [d h t s]. destruct Hwf as [Hs Hl Hh Ht]. simpl in *. subst s.
    destruct (Z.eqb_spec h t) as [->|Hne].
    { rewrite Z.leb_refl in Hp. lia. }
    rewrite slice_get_ok by lia. simpl.
    rewrite int_rem_next by lia. simpl.
    set (rb1 := {| data := d; head := next C h; tail := t; size := C |}).
    assert (Hwf1 : wf C rb1) by (constructor; simpl; try done; apply next_range; lia).
    assert (Hn1 : Z.to_nat (live_count rb1) = n).
    { rewrite live_count_piecewise by done. simpl. cmp_lia. }
    rewrite (IH fuel rb1 _ Hwf1 Hn1) by lia.
    unfold contents. rewrite Hn1. simpl. now rewrite <- app_assoc.
Qed.

Lemma Flush_spec fuel rb :
  wf C rb ->
  (Z.to_nat (live_count rb) <= fuel)%nat ->
  Flush fuel rb = Ok (contents rb, emptied rb).
Proof.
  intros Hwf Hfuel. unfold Flush.
  destruct (Z.eqb_spec (head rb) (tail rb)) as [Heq|Hne].
  - pose proof (live_count_piecewise rb Hwf) as Hp.
    rewrite Heq, Z.leb_refl in Hp.
    unfold contents. rewrite Hp. replace (tail rb - tail rb) with 0 by lia. simpl.
    destruct rb as [d h t s]. simpl in *. now subst.
  - rewrite (make_slice_cap_0 (size rb)) by (rewrite (wf_size C rb Hwf); lia).
    simpl. now apply (Flush_loop_spec (Z.to_nat (live_count rb))).
Qed.

Lemma Flush_ok_inv fuel rb vs rb' :
  wf C rb ->
  Flush fuel rb = Ok (vs, rb') ->
  vs = contents rb /\ rb' = emptied rb.
Proof.
  intros Hwf H.
  assert (H' : Flush (max fuel (Z.to_nat (live_count rb))) rb = Ok (vs, rb')).
  { unfold Flush in *. destruct (head rb =? tail rb); [done|].
    destruct (make_slice_cap 0 (size rb)); simpl in *; try discriminate.
    eapply Flush_loop_mono; [exact H | lia]. }
  rewrite Flush_spec in H' by (try done; lia).
  now inversion H'.
Qed.

Lemma NewRingBuffer_wf rb :
  NewRingBuffer C = Ok rb -> wf C rb /\ contents rb = [].
Proof.
  intros H. rewrite NewRingBuffer_ok in H by lia. inversion H; subst.
  split.
  - constructor; simpl; try lia. rewrite length_replicate. lia.
  - unfold contents, live_count. simpl. reflexivity.
Qed.

Lemma reachable_wf rb : reachable C rb -> wf C rb.
Proof.
  intros Hr. induction Hr as [rb H | v rb rb' _ IH H | fuel rb vs rb' _ IH H].
  - apply NewRingBuffer_wf in H. tauto.
  - destruct (Push_spec rb v IH) as (rb1 & H1 & Hwf1 & _).
    congruence.
  - destruct (Flush_ok_inv fuel rb vs rb' IH H) as [_ ->].
    now apply wf_emptied.
Qed.

Lemma push_all_spec vals :
  forall rb, wf C rb ->
  exists rb',
    push_all vals rb = Ok rb' /\ wf C rb' /\
    contents rb' = lastn (Z.to_nat (C - 1)) (contents rb ++ vals).
Proof.
  induction vals as [|v vs IH]; intros rb Hwf.
  - exists rb. split; [done|]. split; [done|].
    rewrite app_nil_r, lastn_all; [done|].
    rewrite length_contents. pose proof (live_count_range rb Hwf). lia.
  - destruct (Push_spec rb v Hwf) as (rb1 & H1 & Hwf1 & Hc1).
    destruct (IH rb1 Hwf1) as (rb2 & H2 & Hwf2 & Hc2).
    exists rb2. simpl. rewrite H1. simpl. split; [done|]. split; [done|].
    rewrite Hc2, Hc1. unfold lastn.
    rewrite !length_app, !length_drop, !length_app. simpl length.
    rewrite <- drop_app_le by (rewrite length_app; simpl; lia).
    rewrite drop_drop. rewrite <- app_assoc. simpl.
    f_equal. pose proof (length_contents rb). pose proof (live_count_range rb Hwf). lia.
Qed.

End Capacity.

(** ** Buffers as the program can make them *)

Lemma Flush_loop_ends fuel rb acc vs rb' :
  Flush_loop fuel rb acc = Ok (vs, rb') -> head rb' = tail rb'.
Proof.
  revert rb acc. induction fuel as [|fuel IH]; intros rb acc H; simpl in H.
  - destruct (Z.eqb_spec (head rb) (tail rb)); [|discriminate]. congruence.
  - destruct (Z.eqb_spec (head rb) (tail rb)); [congruence|].
    destruct (slice_get (data rb) (head rb)); simpl in H; try discriminate.
    destruct (int_rem (int_add (head rb) 1) (size rb)); simpl in H; try discriminate.
    now apply IH in H.
Qed.

Lemma Flush_ends fuel rb vs rb' :
  Flush fuel rb = Ok (vs, rb') -> head rb' = tail rb'.
Proof.
  unfold Flush. destruct (Z.eqb_spec (head rb) (tail rb)).
  - congruence.
  - destruct (make_slice_cap 0 (size rb)); simpl; try discriminate.
    apply Flush_loop_ends.
Qed.

Lemma Flush_drained fuel rb : head rb = tail rb -> Flush fuel rb = Ok ([], rb).
Proof. intros H. unfold Flush. now rewrite H, Z.eqb_refl. Qed.

(** With no slot at all, the fresh buffer is the only state: every [Push]
    panics. *)
Lemma reachable_0 rb :
  reachable 0 rb -> rb = {| data := []; head := 0; tail := 0; size := 0 |}.
Proof.
  intros Hr. induction Hr as [rb H | v rb rb' _ IH H | fuel rb vs rb' _ IH H].
  - vm_compute in H. congruence.
  - subst rb. vm_compute in H. discriminate.
  - subst rb. rewrite Flush_drained in H by done. congruence.
Qed.

Lemma reachable_Flush C rb fuel :
  0 <= C <= max_int -> reachable C rb -> (Z.to_nat C <= fuel)%nat ->
  Flush fuel rb = Ok (contents rb, emptied rb).
Proof.
  intros HC Hr Hfuel. destruct (Z.eq_dec C 0) as [->|HC0].
  - apply reachable_0 in Hr. subst rb. reflexivity.
  - assert (HC1 : 1 <= C <= max_int) by lia.
    assert (Hwf : wf C rb) by now apply reachable_wf.
    apply (Flush_spec C HC1); [done|].
    pose proof (live_count_range C rb Hwf). lia.
Qed.

(** Two runs of the buffer, for orientation. *)
Example capacity_5_three_pushes :
  (do rb <- NewRingBuffer 5 ; do rb' <- push_all [3; 9; 6] rb ; Flush 5 rb') =
  Ok ([3; 9; 6], {| data := [3; 9; 6; 0; 0]; head := 3; tail := 3; size := 5 |}).
Proof. reflexivity. Qed.

Example capacity_1_keeps_nothing :
  (do rb <- NewRingBuffer 1 ; do rb' <- Push 7 rb ; Flush 1 rb') =
  Ok ([], {| data := [7]; head := 0; tail := 0; size := 1 |}).
Proof. reflexivity. Qed.

(** X1: what [Flush] returns after any pushes into a buffer of capacity
    [C] that [NewRingBuffer] has just made: the last [C - 1] of the values
    pushed, oldest first. *)
Theorem Flush_after_pushes (C : Z) (rb : RingBuffer) (vals : list Z) (fuel : nat) :
  1 <= C <= max_int -> NewRingBuffer C = Ok rb ->
  (Z.to_nat (C - 1) <= fuel)%nat ->
  exists rb',
    push_all vals rb = Ok rb' /\
    Flush fuel rb' = Ok (lastn (Z.to_nat (C - 1)) vals, emptied rb').
Proof.
  intros HC Hnew Hfuel.
  destruct (NewRingBuffer_wf C HC _ Hnew) as [Hwf Hc].
  destruct (push_all_spec C HC vals _ Hwf) as (rb' & Hp & Hwf' & Hc').
  exists rb'. split; [exact Hp|].
  rewrite Hc in Hc'. simpl in Hc'.
  rewrite (Flush_spec C HC); [now rewrite Hc' | done |].
  pose proof (live_count_range C rb' Hwf'). lia.
Qed.

(** C1, on the code: a buffer of capacity 2 into which 3, 9 and 6 are
    pushed holds 6 alone, so [Flush] returns [6] and not the last two
    pushed values [9; 6].  The second push already makes [tail] meet
    [head], and [Push] then gives up the oldest value although its slot
    has not been overwritten. *)
Theorem Flush_capacity_2_overflow :
  exists rb rb',
    NewRingBuffer 2 = Ok rb /\ push_all [3; 9; 6] rb = Ok rb' /\
    (forall fuel, Flush (S fuel) rb' = Ok ([6], emptied rb')) /\
    [6] <> lastn 2 [3; 9; 6].
Proof.
  exists {| data := [0; 0]; head := 0; tail := 0; size := 2 |}.
  exists {| data := [6; 9]; head := 0; tail := 1; size := 2 |}.
  split; [reflexivity|]. split; [reflexivity|].
  split; [|discriminate].
  intros fuel. destruct fuel; reflexivity.
Qed.

(** C5: [Flush] on a buffer that has just been created returns the empty
    sequence, and so does a [Flush] that directly follows a [Flush]: in
    every state a buffer of capacity [C] can be in, a first [Flush]
    returns, and a second one then returns the empty sequence and leaves
    the buffer as it is.  Neither is an error. *)
Theorem Flush_empty_and_idempotent
  (C : Z) (rb : RingBuffer) (fuel fuel' : nat) :
  0 <= C <= max_int -> reachable C rb -> (Z.to_nat C <= fuel)%nat ->
  (NewRingBuffer C = Ok rb -> Flush fuel' rb = Ok ([], rb)) /\
  exists vs rb',
    Flush fuel rb = Ok (vs, rb') /\ Flush fuel' rb' = Ok ([], rb').
Proof.
  intros HC Hr Hfuel. split.
  - intros Hnew. rewrite NewRingBuffer_ok in Hnew by lia.
    inversion Hnew. now apply Flush_drained.
  - exists (contents rb), (emptied rb). split.
    + now apply (reachable_Flush C).
    + now apply Flush_drained.
Qed.

Lemma Flush_empty_and_idempotent_witness :
  let rb := {| data := [3; 9; 0]; head := 0; tail := 2; size := 3 |} in
  (0 <= 3 <= max_int) /\
  reachable 3 rb /\
  exists vs rb', Flush 3 rb = Ok (vs, rb') /\ Flush 0 rb' = Ok ([], rb').
Proof.
  intros rb.
  assert (HC : 0 <= 3 <= max_int) by (unfold max_int; lia).
  assert (Hr : reachable 3 rb).
  { apply (reach_push 3 9 {| data := [3; 0; 0]; head := 0; tail := 1; size := 3 |});
      [|reflexivity].
    apply (reach_push 3 3 {| data := [0; 0; 0]; head := 0; tail := 0; size := 3 |});
      [|reflexivity].
    apply reach_new. reflexivity. }
  split; [exact HC|]. split; [exact Hr|].
  refine (proj2 (Flush_empty_and_idempotent 3 rb 3 0 HC Hr _)).
  simpl. lia.
Defined.

(** C8: in every state that a buffer created with capacity [C >= 1] (an
    [int], hence at most [max_int]) can reach by [Push] and [Flush],
    [head] and [tail] lie in [0, C), the
    number of live values [(tail - head) mod C] is at most [C - 1], and
    [Flush] returns exactly that many values, hence never more than
    [C - 1]. *)
Theorem effective_capacity_invariant
  (C : Z) (rb : RingBuffer) (fuel : nat) :
  1 <= C <= max_int -> reachable C rb -> (Z.to_nat (C - 1) <= fuel)%nat ->
  0 <= head rb < C /\
  0 <= tail rb < C /\
  0 <= (tail rb - head rb) mod C <= C - 1 /\
  (exists vs rb',
     Flush fuel rb = Ok (vs, rb') /\
     Z.of_nat (length vs) = (tail rb - head rb) mod C) /\
  (forall fuel' vs rb',
     Flush fuel' rb = Ok (vs, rb') -> Z.of_nat (length vs) <= C - 1).
Proof.
  intros HC Hr Hfuel.
  assert (Hwf : wf C rb) by now apply reachable_wf.
  pose proof (live_count_range C rb Hwf) as Hn.
  pose proof (length_contents rb) as Hlen.
  unfold live_count in *. rewrite (wf_size C rb Hwf) in *.
  split; [apply Hwf|]. split; [apply Hwf|]. split; [exact Hn|]. split.
  - exists (contents rb), (emptied rb). split; [|lia].
    apply (Flush_spec C HC); [done|].
    unfold live_count. rewrite (wf_size C rb Hwf). lia.
  - intros fuel' vs rb' HF.
    destruct (Flush_ok_inv C HC fuel' rb vs rb' Hwf HF) as [-> _]. lia.
Qed.

Lemma effective_capacity_invariant_witness :
  let rb := {| data := [6; 9]; head := 0; tail := 1; size := 2 |} in
  (1 <= 2 <= max_int) /\
  reachable 2 rb /\
  exists vs rb',
    Flush 1 rb = Ok (vs, rb') /\ Z.of_nat (length vs) = (1 - 0) mod 2.
Proof.
  intros rb.
  assert (HC : 1 <= 2 <= max_int) by (unfold max_int; lia).
  assert (Hr : reachable 2 rb).
  { apply (reach_push 2 6 {| data := [3; 9]; head := 1; tail := 0; size := 2 |});
      [|reflexivity].
    apply (reach_push 2 9 {| data := [3; 0]; head := 0; tail := 1; size := 2 |});
      [|reflexivity].
    apply (reach_push 2 3 {| data := [0; 0]; head := 0; tail := 0; size := 2 |});
      [|reflexivity].
    apply reach_new. reflexivity. }
  split; [exact HC|]. split; [exact Hr|].
  refine (proj1 (proj2 (proj2 (proj2
            (effective_capacity_invariant 2 rb 1 HC Hr _))))).
  simpl. lia.
Defined.

(** C9: for a capacity [C >= 1] (an [int], hence at most [max_int]),
    [Push] and [Flush] never panic in any state the buffer can reach,
    whatever the value pushed: the slots they
    index lie in the slice, the divisor of every [%] is not zero, and both
    return.  [NewRingBuffer(0)] returns a buffer as well, but the first
    [Push] on it panics with an index out of range. *)
Theorem Push_Flush_total (C : Z) (rb : RingBuffer) (v : Z) (fuel : nat) :
  1 <= C <= max_int -> reachable C rb -> (Z.to_nat C <= fuel)%nat ->
  (in_bounds (data rb) (tail rb) = true /\
   in_bounds (data rb) (head rb) = true /\
   size rb <> 0) /\
  (exists rb', Push v rb = Ok rb') /\
  (exists vs rb', Flush fuel rb = Ok (vs, rb')) /\
  (exists rb0,
     NewRingBuffer 0 = Ok rb0 /\ Push v rb0 = Panic IndexOutOfRange).
Proof.
  intros HC Hr Hfuel.
  assert (Hwf : wf C rb) by now apply reachable_wf.
  split; [|split; [|split]].
  - destruct Hwf as [Hs Hl Hh Ht].
    repeat split; try (apply in_bounds_true; lia). lia.
  - destruct (Push_spec C HC rb v Hwf) as (rb' & H & _). now exists rb'.
  - exists (contents rb), (emptied rb).
    apply (reachable_Flush C); [lia | done | done].
  - eexists. split; reflexivity.
Qed.

Lemma Push_Flush_total_witness :
  let rb := {| data := [3; 9; 0; 0; 0]; head := 0; tail := 2; size := 5 |} in
  (1 <= 5 <= max_int) /\
  reachable 5 rb /\
  (exists rb', Push 6 rb = Ok rb') /\
  (exists vs rb', Flush 5 rb = Ok (vs, rb')) /\
  (exists rb0, NewRingBuffer 0 = Ok rb0 /\ Push 6 rb0 = Panic IndexOutOfRange).
Proof.
  intros rb.
  assert (HC : 1 <= 5 <= max_int) by (unfold max_int; lia).
  assert (Hr : reachable 5 rb).
  { apply (reach_push 5 9 {| data := [3; 0; 0; 0; 0]; head := 0; tail := 1; size := 5 |});
      [|reflexivity].
    apply (reach_push 5 3 {| data := [0; 0; 0; 0; 0]; head := 0; tail := 0; size := 5 |});
      [|reflexivity].
    apply reach_new. reflexivity. }
  split; [exact HC|]. split; [exact Hr|].
  refine (proj2 (Push_Flush_total 5 rb 6 5 HC Hr _)).
  simpl. lia.
Defined.

(** ** The conditions of the two filters *)

Lemma isNonNegative_spec n : isNonNegative n = true <-> 0 <= n.
Proof. unfold isNonNegative. apply Z.leb_le. Qed.

Lemma keepMultipleOfThreeExcludingZero_spec n :
  keepMultipleOfThreeExcludingZero n = true <-> n <> 0 /\ n mod 3 = 0.
Proof.
  unfold keepMultipleOfThreeExcludingZero.
  rewrite andb_true_iff, negb_true_iff, Z.eqb_neq, Z.eqb_eq.
  rewrite Z.rem_divide, <- Z.mod_divide by lia. reflexivity.
Qed.

(** ** Runs of a filter stage *)

Section FilterRuns.

Variable keep : Z -> bool.

Lemma filter_run_returned picks s :
  st_status s = Returned ->
  filter_run keep picks s = match picks with [] => Some s | _ => None end.
Proof.
  intros H. destruct picks as [|p ps]; [done|].
  simpl. unfold filter_iter. now rewrite H.
Qed.

Lemma filter_run_trace picks : forall s s',
  st_status s = Running ->
  filter_run keep picks s = Some s' ->
  st_out s' =
  st_out s
    ++ map Send (List.filter keep (arrivals (count_in picks) (st_in s)))
    ++ closing (st_status s').
Proof.
  induction picks as [|p ps IH]; intros s s' Hs Hrun.
  - simpl in Hrun. inversion Hrun; subst s'. rewrite Hs. simpl.
    now rewrite app_nil_r.
  - simpl in Hrun. unfold filter_iter in Hrun. rewrite Hs in Hrun.
    destruct p.
    + destruct (recv 0 (st_in s)) as [[n c]|] eqn:Hrecv; [|discriminate].
      apply IH in Hrun; [|done]. simpl in Hrun. rewrite Hrun.
      unfold count_in. simpl. rewrite Hrecv. simpl.
      destruct (keep n); simpl; now rewrite <- app_assoc.
    + discriminate.
    + destruct (recv false (st_done s)) as [[b d]|]; [|discriminate].
      rewrite filter_run_returned in Hrun by done.
      destruct ps; [|discriminate]. inversion Hrun; subst s'. simpl.
      reflexivity.
Qed.

(** Upstream delivers [ns] and cancellation is not signalled. *)
Lemma filter_run_all ns cl out :
  filter_run keep (repeat CaseIn (length ns))
    (mkStage (mkChan ns cl) silent out Running) =
  Some (mkStage (mkChan [] cl) silent
          (out ++ map Send (List.filter keep ns)) Running).
Proof.
  revert out. induction ns as [|n ns IH]; intros out.
  - simpl. now rewrite app_nil_r.
  - simpl. unfold filter_iter. simpl. rewrite IH. f_equal. f_equal.
    destruct (keep n); simpl; now rewrite <- app_assoc.
Qed.

(** Upstream closed and drained, cancellation not signalled. *)
Lemma filter_run_closed k out :
  filter_run keep (repeat CaseIn k)
    (mkStage (mkChan [] true) silent out Running) =
  Some (mkStage (mkChan [] true) silent
          (out ++ (if keep 0 then repeat (Send 0) k else [])) Running).
Proof.
  revert out. induction k as [|k IH]; intros out.
  - simpl. destruct (keep 0); now rewrite app_nil_r.
  - simpl. unfold filter_iter. simpl. rewrite IH. f_equal. f_equal.
    destruct (keep 0); simpl; now rewrite <- app_assoc.
Qed.

Lemma filter_run_closed_inv picks : forall out s',
  filter_run keep picks (mkStage (mkChan [] true) silent out Running) = Some s' ->
  picks = repeat CaseIn (length picks).
Proof.
  induction picks as [|p ps IH]; intros out s' Hrun; [done|].
  simpl in Hrun. unfold filter_iter in Hrun. simpl in Hrun.
  destruct p; try discriminate.
  simpl. f_equal. eapply IH. exact Hrun.
Qed.


End FilterRuns.

(** ** Runs of the buffering stage *)

Lemma bufferAndSend_run_returned fuel picks s :
  ag_status s = Returned ->
  bufferAndSend_run fuel picks s =
  match picks with [] => Some (Ok s) | _ => None end.
Proof.
  intros H. destruct picks as [|p ps]; [done|].
  simpl. unfold bufferAndSend_iter. now rewrite H.
Qed.



(** ** Runs of [main] *)

Lemma main_run_returned picks s :
  m_status s = Returned ->
  main_run picks s = match picks with [] => Some s | _ => None end.
Proof.
  intros H. destruct picks as [|p ps]; [done|].
  simpl. unfold main_iter. now rewrite H.
Qed.



Lemma filter_iter_returns keep pick s s' :
  filter_iter keep pick s = Some s' -> st_status s' = Returned ->
  pick = CaseDone /\ recv false (st_done s) <> None.
Proof.
  unfold filter_iter. intros H Hret.
  destruct (st_status s); [|discriminate].
  destruct pick.
  - destruct (recv 0 (st_in s)) as [[n c]|]; [|discriminate].
    inversion H; subst s'. discriminate.
  - discriminate.
  - destruct (recv false (st_done s)); [|discriminate]. now split.
Qed.

(** ** The buffering stage never panics on a buffer with at least one slot *)


(** * Properties of the stages *)

(** C3: the first filter stage forwards a value [n] exactly when
    [n >= 0], the second exactly when [n <> 0] and [n mod 3 = 0]; under
    any schedule, what a stage has sent is the sequence of the values it
    has received that pass its condition, in the order of their arrival
    (followed by the closing of its output once it has returned), so that
    a value that fails the condition leaves no trace. *)
Theorem filter_correctness
  (n : Z) (picks : list select_case) (s s1 s2 : stage) :
  st_status s = Running ->
  filterNegative picks s = Some s1 ->
  filterNotDivisibleBy3 picks s = Some s2 ->
  (isNonNegative n = true <-> n >= 0) /\
  (keepMultipleOfThreeExcludingZero n = true <-> n <> 0 /\ n mod 3 = 0) /\
  st_out s1 =
    st_out s
      ++ map Send (List.filter isNonNegative
                     (arrivals (count_in picks) (st_in s)))
      ++ closing (st_status s1) /\
  st_out s2 =
    st_out s
      ++ map Send (List.filter keepMultipleOfThreeExcludingZero
                     (arrivals (count_in picks) (st_in s)))
      ++ closing (st_status s2).
Proof.
  intros Hs H1 H2. split; [|split; [|split]].
  - rewrite isNonNegative_spec. lia.
  - apply keepMultipleOfThreeExcludingZero_spec.
  - now apply filter_run_trace.
  - now apply filter_run_trace.
Qed.

Lemma filter_correctness_witness :
  let s := start (mkChan [7; -1; 0; -6; 12; 5] false) silent in
  let picks := repeat CaseIn 6 in
  exists s1 s2,
    st_status s = Running /\
    filterNegative picks s = Some s1 /\
    filterNotDivisibleBy3 picks s = Some s2 /\
    st_out s1 = [Send 7; Send 0; Send 12; Send 5] /\
    st_out s2 = [Send (-6); Send 12].
Proof.
  intros s picks.
  set (s1 := mkStage (mkChan [] false) silent
               [Send 7; Send 0; Send 12; Send 5] Running).
  set (s2 := mkStage (mkChan [] false) silent [Send (-6); Send 12] Running).
  exists s1, s2.
  assert (H1 : filterNegative picks s = Some s1) by reflexivity.
  assert (H2 : filterNotDivisibleBy3 picks s = Some s2) by reflexivity.
  split; [reflexivity|]. split; [exact H1|]. split; [exact H2|].
  destruct (filter_correctness 7 picks s s1 s2 eq_refl H1 H2)
    as (_ & _ & E1 & E2).
  split; [exact E1 | exact E2].
Defined.

(** C4: when the buffering stage takes the cancellation case, it flushes
    its buffer, sends the values that [Flush] returned, each once and in
    the order returned (oldest first), closes its output and returns; from
    then on no case is serviced any more, a timer tick included.  With
    capacity 5 and 3, 9 held, it sends 3, then 9, then closes. *)
Theorem cancellation_drain
  (C : Z) (rb : RingBuffer) (in_ : chan Z) (done d' : chan bool) (b : bool)
  (out : list action) (fuel : nat) (pick : select_case) :
  1 <= C <= max_int -> reachable C rb ->
  recv false done = Some (b, d') ->
  (Z.to_nat C <= fuel)%nat ->
  exists vs rb',
    Flush fuel rb = Ok (vs, rb') /\
    vs = contents rb /\
    bufferAndSend_iter fuel CaseDone (mkAgg in_ done rb out Running) =
      Some (Ok (mkAgg in_ d' rb' (out ++ map Send vs ++ [Close]) Returned)) /\
    bufferAndSend_iter fuel pick
      (mkAgg in_ d' rb' (out ++ map Send vs ++ [Close]) Returned) = None.
Proof.
  intros HC Hr Hrecv Hfuel.
  exists (contents rb), (emptied rb).
  assert (HF : Flush fuel rb = Ok (contents rb, emptied rb))
    by (apply (reachable_Flush C); [lia | done | done]).
  split; [exact HF|]. split; [reflexivity|]. split; [|reflexivity].
  unfold bufferAndSend_iter. simpl. rewrite Hrecv, HF. reflexivity.
Qed.

Lemma cancellation_drain_witness :
  let rb := {| data := [3; 9; 0; 0; 0]; head := 0; tail := 2; size := 5 |} in
  (1 <= 5 <= max_int) /\
  reachable 5 rb /\
  recv false (mkChan [true] false) = Some (true, silent) /\
  exists rb',
    Flush 5 rb = Ok ([3; 9], rb') /\
    bufferAndSend_iter 5 CaseDone (mkAgg silent (mkChan [true] false) rb [] Running) =
      Some (Ok (mkAgg silent silent rb' [Send 3; Send 9; Close] Returned)) /\
    bufferAndSend_iter 5 CaseTick
      (mkAgg silent silent rb' [Send 3; Send 9; Close] Returned) = None.
Proof.
  intros rb.
  assert (HC : 1 <= 5 <= max_int) by (unfold max_int; lia).
  assert (Hr : reachable 5 rb).
  { apply (reach_push 5 9 {| data := [3; 0; 0; 0; 0]; head := 0; tail := 1; size := 5 |});
      [|reflexivity].
    apply (reach_push 5 3 {| data := [0; 0; 0; 0; 0]; head := 0; tail := 0; size := 5 |});
      [|reflexivity].
    apply reach_new. reflexivity. }
  split; [exact HC|]. split; [exact Hr|]. split; [reflexivity|].
  destruct (cancellation_drain 5 rb silent (mkChan [true] false) silent true
              [] 5 CaseTick HC Hr eq_refl)
    as (vs & rb' & HF & Hvs & Hdone & Hafter); [simpl; lia|].
  assert (Hvs' : vs = [3; 9]) by (rewrite Hvs; reflexivity).
  rewrite Hvs' in HF, Hdone, Hafter.
  exists rb'. split; [exact HF|]. split; [exact Hdone | exact Hafter].
Defined.

(** C6: with the input [-2; 3; 4; 9; 0; 6], the first filter stage sends
    3, 4, 9, 0, 6; on these the second sends 3, 9, 6; the buffering stage
    with capacity 5 then holds 3, 9, 6 and has sent nothing, and the one
    tick that follows makes it send 3, 9, 6 in that order and leaves its
    buffer empty. *)
Theorem end_to_end_example (fuel : nat) :
  exists (s1 s2 : stage) (a0 a1 a2 : agg),
    filterNegative (repeat CaseIn 6)
      (start (mkChan [-2; 3; 4; 9; 0; 6] false) silent) = Some s1 /\
    sent (st_out s1) = [3; 4; 9; 0; 6] /\
    filterNotDivisibleBy3 (repeat CaseIn 5)
      (start (downstream (st_out s1)) silent) = Some s2 /\
    sent (st_out s2) = [3; 9; 6] /\
    bufferAndSend_start (downstream (st_out s2)) silent defaultBufferSize = Ok a0 /\
    bufferAndSend_run (3 + fuel) [CaseIn; CaseIn; CaseIn] a0 = Some (Ok a1) /\
    contents (ag_buffer a1) = [3; 9; 6] /\
    ag_out a1 = [] /\
    bufferAndSend_run (3 + fuel) [CaseTick] a1 = Some (Ok a2) /\
    ag_out a2 = [Send 3; Send 9; Send 6] /\
    contents (ag_buffer a2) = [].
Proof.
  exists (mkStage (mkChan [] false) silent
            [Send 3; Send 4; Send 9; Send 0; Send 6] Running).
  exists (mkStage (mkChan [] false) silent [Send 3; Send 9; Send 6] Running).
  exists (mkAgg (mkChan [3; 9; 6] false) silent
            {| data := [0; 0; 0; 0; 0]; head := 0; tail := 0; size := 5 |}
            [] Running).
  exists (mkAgg (mkChan [] false) silent
            {| data := [3; 9; 6; 0; 0]; head := 0; tail := 3; size := 5 |}
            [] Running).
  exists (mkAgg (mkChan [] false) silent
            {| data := [3; 9; 6; 0; 0]; head := 3; tail := 3; size := 5 |}
            [Send 3; Send 9; Send 6] Running).
  repeat split; try reflexivity.
  destruct fuel; reflexivity.
Qed.



(** C10: the closing of its upstream channel never makes a filter stage
    return or close its output: a stage returns on the cancellation case
    alone.  Once upstream is closed and drained, and as long as
    cancellation is not signalled, the receive from upstream is the only
    case that can fire, it yields 0 each time, and on each iteration
    [filterNegative] sends that 0 on while [filterNotDivisibleBy3] drops
    it; both keep running for as many iterations as one cares to
    schedule. *)
Theorem closed_upstream_not_propagated
  (picks : list select_case) (out : list action) (s1 s2 : stage) :
  filterNegative picks (mkStage (mkChan [] true) silent out Running) = Some s1 ->
  filterNotDivisibleBy3 picks (mkStage (mkChan [] true) silent out Running) = Some s2 ->
  recv 0 (mkChan [] true) = Some (0, mkChan [] true) /\
  picks = repeat CaseIn (length picks) /\
  s1 = mkStage (mkChan [] true) silent
         (out ++ repeat (Send 0) (length picks)) Running /\
  s2 = mkStage (mkChan [] true) silent out Running /\
  (forall k,
     filterNegative (repeat CaseIn k)
       (mkStage (mkChan [] true) silent out Running) =
     Some (mkStage (mkChan [] true) silent
             (out ++ repeat (Send 0) k) Running) /\
     filterNotDivisibleBy3 (repeat CaseIn k)
       (mkStage (mkChan [] true) silent out Running) =
     Some (mkStage (mkChan [] true) silent out Running)) /\
  (forall keep pick s s',
     filter_iter keep pick s = Some s' -> st_status s' = Returned ->
     pick = CaseDone /\ recv false (st_done s) <> None).
Proof.
  intros H1 H2.
  assert (Hall : forall k,
    filterNegative (repeat CaseIn k)
      (mkStage (mkChan [] true) silent out Running) =
    Some (mkStage (mkChan [] true) silent (out ++ repeat (Send 0) k) Running) /\
    filterNotDivisibleBy3 (repeat CaseIn k)
      (mkStage (mkChan [] true) silent out Running) =
    Some (mkStage (mkChan [] true) silent out Running)).
  { intros k. unfold filterNegative, filterNotDivisibleBy3.
    rewrite !filter_run_closed. simpl. now rewrite app_nil_r. }
  pose proof (filter_run_closed_inv _ _ _ _ H1) as Hp.
  split; [reflexivity|]. split; [exact Hp|].
  destruct (Hall (length picks)) as [E1 E2]. rewrite <- Hp in E1, E2.
  split; [congruence|]. split; [congruence|]. split; [exact Hall|].
  apply filter_iter_returns.
Qed.

Lemma closed_upstream_not_propagated_witness :
  let s := mkStage (mkChan [] true) silent [Send 3] Running in
  let picks := [CaseIn; CaseIn] in
  filterNegative picks s
  = Some (mkStage (mkChan [] true) silent [Send 3; Send 0; Send 0] Running) /\
  filterNotDivisibleBy3 picks s = Some s /\
  picks = repeat CaseIn (length picks).
Proof.
  intros s picks.
  assert (H1 : filterNegative picks s
               = Some (mkStage (mkChan [] true) silent
                         [Send 3; Send 0; Send 0] Running)) by reflexivity.
  assert (H2 : filterNotDivisibleBy3 picks s = Some s) by reflexivity.
  split; [exact H1|]. split; [exact H2|].
  exact (proj1 (proj2 (closed_upstream_not_propagated _ _ _ _ H1 H2))).
Defined.

(** * Further properties of the code *)

(** ** The ring buffer *)

Lemma contents_emptied C rb : wf C rb -> contents (emptied rb) = [].
Proof.
  intros Hwf. unfold contents.
  now rewrite (live_count_emptied C rb Hwf).
Qed.

Lemma pushes_then_Flush C rb vals fuel :
  1 <= C <= max_int -> wf C rb -> (Z.to_nat (C - 1) <= fuel)%nat ->
  exists rb',
    push_all vals rb = Ok rb' /\ wf C rb' /\
    Flush fuel rb' = Ok (lastn (Z.to_nat (C - 1)) (contents rb ++ vals), emptied rb').
Proof.
  intros HC Hwf Hfuel.
  destruct (push_all_spec C HC vals rb Hwf) as (rb' & Hp & Hwf' & Hc).
  exists rb'. split; [exact Hp|]. split; [exact Hwf'|].
  rewrite (Flush_spec C HC); [now rewrite Hc | done |].
  pose proof (live_count_range C rb' Hwf'). lia.
Qed.

Lemma Flush_after_pushes_witness :
  let rb := {| data := [0; 0; 0]; head := 0; tail := 0; size := 3 |} in
  (1 <= 3 <= max_int) /\
  NewRingBuffer 3 = Ok rb /\
  exists rb',
    push_all [1; 2; 3; 4] rb = Ok rb' /\
    Flush 2 rb' = Ok ([3; 4], emptied rb').
Proof.
  intros rb.
  assert (HC : 1 <= 3 <= max_int) by (unfold max_int; lia).
  assert (Hnew : NewRingBuffer 3 = Ok rb) by reflexivity.
  split; [exact HC|]. split; [exact Hnew|].
  exact (Flush_after_pushes 3 rb [1; 2; 3; 4] 2 HC Hnew ltac:(simpl; lia)).
Defined.

(** X2: [Flush] starts a new window.  Whatever state the buffer is in,
    after a [Flush] the values pushed next are the only ones the following
    [Flush] can return, namely the last [C - 1] of them in the order
    pushed: nothing that the first [Flush] returned is returned again. *)
Theorem Flush_starts_a_new_window
  (C : Z) (rb : RingBuffer) (vals : list Z) (fuel fuel' : nat) :
  1 <= C <= max_int -> reachable C rb ->
  (Z.to_nat C <= fuel)%nat -> (Z.to_nat C <= fuel')%nat ->
  exists old rb1 rb2,
    Flush fuel rb = Ok (old, rb1) /\
    push_all vals rb1 = Ok rb2 /\
    Flush fuel' rb2 = Ok (lastn (Z.to_nat (C - 1)) vals, emptied rb2).
Proof.
  intros HC Hr Hfuel Hfuel'.
  assert (Hwf : wf C rb) by now apply reachable_wf.
  assert (Hwf1 : wf C (emptied rb)) by now apply wf_emptied.
  destruct (pushes_then_Flush C (emptied rb) vals fuel' HC Hwf1 ltac:(lia))
    as (rb2 & Hp & _ & HF).
  exists (contents rb), (emptied rb), rb2.
  split; [apply (reachable_Flush C); [lia | done | done]|].
  split; [exact Hp|].
  now rewrite (contents_emptied C rb Hwf) in HF.
Qed.

Lemma Flush_starts_a_new_window_witness :
  let rb := {| data := [1; 2; 0; 0]; head := 0; tail := 2; size := 4 |} in
  (1 <= 4 <= max_int) /\ reachable 4 rb /\
  exists old rb1 rb2,
    Flush 4 rb = Ok (old, rb1) /\
    push_all [7; 8] rb1 = Ok rb2 /\
    Flush 4 rb2 = Ok ([7; 8], emptied rb2).
Proof.
  intros rb.
  assert (HC : 1 <= 4 <= max_int) by (unfold max_int; lia).
  assert (Hr : reachable 4 rb).
  { apply (reach_push 4 2 {| data := [1; 0; 0; 0]; head := 0; tail := 1; size := 4 |});
      [|reflexivity].
    apply (reach_push 4 1 {| data := [0; 0; 0; 0]; head := 0; tail := 0; size := 4 |});
      [|reflexivity].
    apply reach_new. reflexivity. }
  split; [exact HC|]. split; [exact Hr|].
  exact (Flush_starts_a_new_window 4 rb [7; 8] 4 4 HC Hr
           ltac:(simpl; lia) ltac:(simpl; lia)).
Defined.

(** X3: [Push] never fails on a buffer with at least one slot, changes
    neither [size] nor the length of [data], and treats the live values as
    a queue: while fewer than [C - 1] are held the new value is added
    behind them; otherwise it is added and the oldest one is dropped. *)
Theorem Push_appends_or_evicts_oldest (C : Z) (rb : RingBuffer) (v : Z) :
  1 <= C <= max_int -> reachable C rb ->
  exists rb',
    Push v rb = Ok rb' /\
    size rb' = size rb /\
    length (data rb') = length (data rb) /\
    contents rb' =
      (if live_count rb <? C - 1 then contents rb ++ [v]
       else drop 1 (contents rb ++ [v])).
Proof.
  intros HC Hr.
  assert (Hwf : wf C rb) by now apply reachable_wf.
  destruct (Push_spec C HC rb v Hwf) as (rb' & HP & Hwf' & Hc).
  exists rb'. split; [exact HP|].
  split; [now rewrite (wf_size C rb' Hwf'), (wf_size C rb Hwf)|].
  split.
  { pose proof (wf_len C rb Hwf). pose proof (wf_len C rb' Hwf'). lia. }
  rewrite Hc.
  pose proof (live_count_range C rb Hwf) as Hn.
  pose proof (length_contents rb) as Hlen.
  destruct (Z.ltb_spec (live_count rb) (C - 1)).
  - apply lastn_all. rewrite length_app. simpl. lia.
  - unfold lastn. rewrite length_app. simpl length. f_equal. lia.
Qed.

Lemma Push_appends_or_evicts_oldest_witness :
  let rb := {| data := [1; 2; 0]; head := 0; tail := 2; size := 3 |} in
  (1 <= 3 <= max_int) /\ reachable 3 rb /\
  exists rb',
    Push 5 rb = Ok rb' /\ size rb' = 3 /\ length (data rb') = 3%nat /\
    contents rb' = [2; 5].
Proof.
  intros rb.
  assert (HC : 1 <= 3 <= max_int) by (unfold max_int; lia).
  assert (Hr : reachable 3 rb).
  { apply (reach_push 3 2 {| data := [1; 0; 0]; head := 0; tail := 1; size := 3 |});
      [|reflexivity].
    apply (reach_push 3 1 {| data := [0; 0; 0]; head := 0; tail := 0; size := 3 |});
      [|reflexivity].
    apply reach_new. reflexivity. }
  split; [exact HC|]. split; [exact Hr|].
  destruct (Push_appends_or_evicts_oldest 3 rb 5 HC Hr)
    as (rb' & HP & Hs & Hl & Hc).
  exists rb'. split; [exact HP|]. split; [exact Hs|]. split; [exact Hl|].
  rewrite Hc. reflexivity.
Defined.

(** X4: a buffer of capacity 1 never holds a value.  In every state it
    can reach, [Flush] returns the empty sequence and leaves the buffer as
    it is, also right after a [Push], which itself succeeds. *)
Theorem capacity_1_holds_nothing (rb : RingBuffer) (v : Z) (fuel : nat) :
  reachable 1 rb ->
  Flush fuel rb = Ok ([], rb) /\
  exists rb', Push v rb = Ok rb' /\ Flush fuel rb' = Ok ([], rb').
Proof.
  intros Hr.
  assert (HC : 1 <= 1 <= max_int) by (unfold max_int; lia).
  assert (Hwf : wf 1 rb) by now apply reachable_wf.
  assert (Hempty : forall rb0, wf 1 rb0 -> Flush fuel rb0 = Ok ([], rb0)).
  { intros rb0 [_ _ Hh Ht]. apply Flush_drained. lia. }
  split; [now apply Hempty|].
  destruct (Push_spec 1 HC rb v Hwf) as (rb' & HP & Hwf' & _).
  exists rb'. split; [exact HP | now apply Hempty].
Qed.

Lemma capacity_1_holds_nothing_witness :
  let rb := {| data := [4]; head := 0; tail := 0; size := 1 |} in
  reachable 1 rb /\
  Flush 0 rb = Ok ([], rb) /\
  exists rb', Push 8 rb = Ok rb' /\ Flush 0 rb' = Ok ([], rb').
Proof.
  intros rb.
  assert (Hr : reachable 1 rb).
  { apply (reach_push 1 4 {| data := [0]; head := 0; tail := 0; size := 1 |});
      [|reflexivity].
    apply reach_new. reflexivity. }
  split; [exact Hr|].
  exact (capacity_1_holds_nothing rb 8 0 Hr).
Defined.

(** ** Runs of the buffering stage, once more *)

Lemma arrivals_pending vals rest cl :
  arrivals (length vals) (mkChan (vals ++ rest) cl) = vals /\
  after (length vals) (mkChan (vals ++ rest) cl) = mkChan rest cl.
Proof.
  induction vals as [|v vs [IH1 IH2]]; [done|].
  simpl. unfold recv. simpl. now rewrite IH1, IH2.
Qed.

Lemma arrivals_closed k :
  arrivals k (mkChan [] true) = repeat 0 k /\
  after k (mkChan [] true) = mkChan [] true.
Proof.
  induction k as [|k [IH1 IH2]]; [done|].
  simpl. unfold recv. simpl. now rewrite IH1, IH2.
Qed.

Lemma sent_app tr1 tr2 : sent (tr1 ++ tr2) = sent tr1 ++ sent tr2.
Proof.
  induction tr1 as [|[n|] tr1 IH]; simpl; [done | now rewrite IH | done].
Qed.

Lemma sent_map_Send vs : sent (map Send vs) = vs.
Proof. induction vs as [|v vs IH]; simpl; [done | now rewrite IH]. Qed.

Lemma downstream_map_Send vs : downstream (map Send vs) = mkChan vs false.
Proof.
  unfold downstream. rewrite sent_map_Send. f_equal.
  induction vs as [|v vs IH]; [done | exact IH].
Qed.

Section BufferRuns.

Variable C : Z.
Hypothesis HC : 1 <= C <= max_int.
Variable fuel : nat.
Hypothesis Hfuel : (Z.to_nat C <= fuel)%nat.

Lemma Flush_wf rb : wf C rb -> Flush fuel rb = Ok (contents rb, emptied rb).
Proof.
  intros Hwf. apply (Flush_spec C HC); [done|].
  pose proof (live_count_range C rb Hwf). lia.
Qed.

(** [k] receives in a row push the [k] values received. *)
Lemma bufferAndSend_run_receives k : forall in_ done rb out,
  wf C rb -> length (arrivals k in_) = k ->
  exists rb',
    push_all (arrivals k in_) rb = Ok rb' /\ wf C rb' /\
    bufferAndSend_run fuel (repeat CaseIn k) (mkAgg in_ done rb out Running) =
    Some (Ok (mkAgg (after k in_) done rb' out Running)).
Proof.
  induction k as [|k IH]; intros in_ done rb out Hwf Hlen.
  - exists rb. split; [done|]. split; [done|]. reflexivity.
  - simpl in Hlen |- *. unfold bufferAndSend_iter. simpl.
    destruct (recv 0 in_) as [[v c]|]; [|discriminate].
    simpl in Hlen.
    destruct (Push_spec C HC rb v Hwf) as (rb1 & HP & Hwf1 & _).
    simpl. rewrite HP. simpl.
    destruct (IH c done rb1 out Hwf1 ltac:(lia)) as (rb' & Hp & Hwf' & Hrun).
    exists rb'. split; [exact Hp|]. split; [exact Hwf'|]. exact Hrun.
Qed.

(** A tick: the live values are sent, the buffer is left empty. *)
Lemma bufferAndSend_iter_tick in_ done rb out :
  wf C rb ->
  bufferAndSend_iter fuel CaseTick (mkAgg in_ done rb out Running) =
  Some (Ok (mkAgg in_ done (emptied rb) (out ++ map Send (contents rb)) Running)).
Proof.
  intros Hwf. unfold bufferAndSend_iter. simpl. now rewrite Flush_wf.
Qed.

Lemma bufferAndSend_run_app picks1 picks2 s s1 :
  bufferAndSend_run fuel picks1 s = Some (Ok s1) ->
  bufferAndSend_run fuel (picks1 ++ picks2) s = bufferAndSend_run fuel picks2 s1.
Proof.
  revert s. induction picks1 as [|p ps IH]; intros s H; simpl in *.
  - now inversion H.
  - destruct (bufferAndSend_iter fuel p s) as [[s'| |]|]; try discriminate.
    now apply IH.
Qed.

(** One window: [vals] arrive, then the ticker fires. *)
Lemma bufferAndSend_window vals rest cl done rb out :
  wf C rb ->
  exists rb',
    wf C rb' /\ contents rb' = [] /\
    bufferAndSend_run fuel (repeat CaseIn (length vals) ++ [CaseTick])
      (mkAgg (mkChan (vals ++ rest) cl) done rb out Running) =
    Some (Ok (mkAgg (mkChan rest cl) done rb'
                (out ++ map Send (lastn (Z.to_nat (C - 1)) (contents rb ++ vals)))
                Running)).
Proof.
  intros Hwf.
  destruct (arrivals_pending vals rest cl) as [Harr Haft].
  destruct (bufferAndSend_run_receives (length vals)
              (mkChan (vals ++ rest) cl) done rb out Hwf)
    as (rb1 & Hp & Hwf1 & Hrun); [now rewrite Harr|].
  rewrite Harr in Hp. rewrite Haft in Hrun.
  destruct (push_all_spec C HC vals rb Hwf) as (rb2 & Hp2 & _ & Hc).
  assert (rb2 = rb1) as -> by congruence.
  exists (emptied rb1). split; [now apply wf_emptied|].
  split; [now apply (contents_emptied C)|].
  rewrite (bufferAndSend_run_app _ _ _ _ Hrun). cbn [bufferAndSend_run].
  rewrite bufferAndSend_iter_tick by done. now rewrite Hc.
Qed.

(** The same window closed by cancellation instead of a tick. *)
Lemma bufferAndSend_window_done vals rest cl done d' b rb out :
  wf C rb -> recv false done = Some (b, d') ->
  exists rb',
    bufferAndSend_run fuel (repeat CaseIn (length vals) ++ [CaseDone])
      (mkAgg (mkChan (vals ++ rest) cl) done rb out Running) =
    Some (Ok (mkAgg (mkChan rest cl) d' rb'
                (out ++ map Send (lastn (Z.to_nat (C - 1)) (contents rb ++ vals))
                     ++ [Close])
                Returned)).
Proof.
  intros Hwf Hdone.
  destruct (arrivals_pending vals rest cl) as [Harr Haft].
  destruct (bufferAndSend_run_receives (length vals)
              (mkChan (vals ++ rest) cl) done rb out Hwf)
    as (rb1 & Hp & Hwf1 & Hrun); [now rewrite Harr|].
  rewrite Harr in Hp. rewrite Haft in Hrun.
  destruct (push_all_spec C HC vals rb Hwf) as (rb2 & Hp2 & _ & Hc).
  assert (rb2 = rb1) as -> by congruence.
  exists (emptied rb1).
  rewrite (bufferAndSend_run_app _ _ _ _ Hrun). simpl.
  unfold bufferAndSend_iter. simpl. rewrite Hdone, Flush_wf by done. simpl.
  now rewrite Hc.
Qed.

(** Windows that fit: nothing is lost. *)
Lemma bufferAndSend_windows_fit ws : forall rest cl done rb out,
  wf C rb -> contents rb = [] ->
  Forall (fun w => Z.of_nat (length w) <= C - 1) ws ->
  exists rb',
    wf C rb' /\ contents rb' = [] /\
    bufferAndSend_run fuel (tick_windows ws)
      (mkAgg (mkChan (concat ws ++ rest) cl) done rb out Running) =
    Some (Ok (mkAgg (mkChan rest cl) done rb'
                (out ++ map Send (concat ws)) Running)).
Proof.
  induction ws as [|w ws IH]; intros rest cl done rb out Hwf Hc Hfit.
  - exists rb. split; [done|]. split; [done|].
    simpl. now rewrite app_nil_r.
  - inversion Hfit as [|? ? Hw Hws]; subst.
    change (tick_windows (w :: ws))
      with ((repeat CaseIn (length w) ++ [CaseTick]) ++ tick_windows ws).
    change (concat (w :: ws)) with (w ++ concat ws).
    rewrite <- (app_assoc w).
    destruct (bufferAndSend_window w (concat ws ++ rest) cl done rb out Hwf)
      as (rb1 & Hwf1 & Hc1 & Hrun).
    rewrite (bufferAndSend_run_app _ _ _ _ Hrun).
    destruct (IH rest cl done rb1
                (out ++ map Send (lastn (Z.to_nat (C - 1)) (contents rb ++ w)))
                Hwf1 Hc1 Hws) as (rb' & Hwf' & Hc' & Hrun').
    exists rb'. split; [done|]. split; [done|].
    rewrite Hrun'. rewrite Hc. simpl.
    rewrite lastn_all by lia.
    now rewrite map_app, <- app_assoc.
Qed.

(** What has been sent and what is still held come from what was
    received, in the order received. *)
Lemma bufferAndSend_run_sublist picks : forall s s',
  ag_status s = Running -> wf C (ag_buffer s) ->
  bufferAndSend_run fuel picks s = Some (Ok s') ->
  exists mid,
    sent (ag_out s') = sent (ag_out s) ++ mid /\
    sublist (mid ++ contents (ag_buffer s'))
      (contents (ag_buffer s) ++ arrivals (count_in picks) (ag_in s)).
Proof.
  induction picks as [|p ps IH]; intros s s' Hs Hwf Hrun.
  - simpl in Hrun. inversion Hrun; subst s'. exists [].
    split; [now rewrite app_nil_r|]. simpl. now rewrite app_nil_r.
  - simpl in Hrun. unfold bufferAndSend_iter in Hrun. rewrite Hs in Hrun.
    destruct s as [in_ done rb out st]. simpl in *. subst st.
    destruct p.
    + destruct (recv 0 in_) as [[n c]|] eqn:Hrecv; [|discriminate].
      destruct (Push_spec C HC rb n Hwf) as (rb1 & HP & Hwf1 & Hc1).
      rewrite HP in Hrun. simpl in Hrun.
      apply IH in Hrun; [|done|done]. simpl in Hrun.
      destruct Hrun as (mid & Hsent & Hsub).
      exists mid. split; [exact Hsent|].
      unfold count_in. simpl. rewrite Hrecv. fold (count_in ps).
      etransitivity; [exact Hsub|].
      rewrite Hc1. unfold lastn.
      replace (contents rb ++ n :: arrivals (count_in ps) c)
        with ((contents rb ++ [n]) ++ arrivals (count_in ps) c)
        by now rewrite <- app_assoc.
      apply sublist_app; [apply sublist_drop | done].
    + rewrite Flush_wf in Hrun by done. simpl in Hrun.
      apply IH in Hrun; [|done|simpl; now apply wf_emptied]. simpl in Hrun.
      destruct Hrun as (mid & Hsent & Hsub).
      rewrite (contents_emptied C rb Hwf) in Hsub. simpl in Hsub.
      exists (contents rb ++ mid). split.
      * rewrite Hsent, sent_app, sent_map_Send. now rewrite <- app_assoc.
      * rewrite <- app_assoc. apply sublist_app; [done|].
        unfold count_in in *. simpl. exact Hsub.
    + destruct (recv false done) as [[b d]|]; [|discriminate].
      rewrite Flush_wf in Hrun by done. simpl in Hrun.
      rewrite bufferAndSend_run_returned in Hrun by done.
      destruct ps; [|discriminate]. inversion Hrun; subst s'. simpl.
      exists (contents rb). split.
      * rewrite !sent_app, sent_map_Send. simpl. now rewrite app_nil_r.
      * rewrite (contents_emptied C rb Hwf). unfold count_in. simpl.
        now rewrite !app_nil_r.
Qed.

End BufferRuns.

(** ** The filters in a row, and the loop of [main] *)

Lemma filter_filter_andb {A} (p q : A -> bool) l :
  List.filter q (List.filter p l) = List.filter (fun x => p x && q x) l.
Proof.
  induction l as [|x l IH]; [done|]. simpl.
  destruct (p x); simpl; [destruct (q x); now rewrite IH | exact IH].
Qed.

Lemma passes_both_spec n : passes_both n = true <-> 0 < n /\ n mod 3 = 0.
Proof.
  unfold passes_both.
  rewrite andb_true_iff, isNonNegative_spec, keepMultipleOfThreeExcludingZero_spec.
  lia.
Qed.

Lemma main_run_prints picks : forall s s',
  m_status s = Running ->
  main_run picks s = Some s' ->
  m_trace s' =
  m_trace s ++ map Printf (arrivals (count_out picks) (m_pipelineOut s))
    ++ farewell (m_status s').
Proof.
  induction picks as [|p ps IH]; intros s s' Hs Hrun.
  - simpl in Hrun. inversion Hrun; subst s'. rewrite Hs. simpl.
    now rewrite app_nil_r.
  - simpl in Hrun. unfold main_iter in Hrun. rewrite Hs in Hrun.
    destruct p.
    + destruct (recv 0 (m_pipelineOut s)) as [[n c]|] eqn:Hrecv; [|discriminate].
      apply IH in Hrun; [|done]. simpl in Hrun. rewrite Hrun.
      unfold count_out. simpl. rewrite Hrecv. simpl.
      now rewrite <- app_assoc.
    + destruct (recv None (m_interrupt s)) as [[b d]|]; [|discriminate].
      rewrite main_run_returned in Hrun by done.
      destruct ps; [|discriminate]. inversion Hrun; subst s'. reflexivity.
Qed.

Lemma main_run_no_interrupt picks : forall s s',
  m_status s = Running -> recv None (m_interrupt s) = None ->
  main_run picks s = Some s' -> m_status s' = Running.
Proof.
  induction picks as [|p ps IH]; intros s s' Hs Hi Hrun.
  - simpl in Hrun. now inversion Hrun; subst s'.
  - simpl in Hrun. unfold main_iter in Hrun. rewrite Hs in Hrun.
    destruct p.
    + destruct (recv 0 (m_pipelineOut s)) as [[n c]|]; [|discriminate].
      now apply IH in Hrun.
    + now rewrite Hi in Hrun.
Qed.

Lemma main_run_all vs cl intr tr :
  main_run (repeat CaseOut (length vs)) (mkMain (mkChan vs cl) intr tr Running) =
  Some (mkMain (mkChan [] cl) intr (tr ++ map Printf vs) Running).
Proof.
  revert tr. induction vs as [|v vs IH]; intros tr.
  - simpl. now rewrite app_nil_r.
  - simpl. unfold main_iter. simpl. rewrite IH. now rewrite <- app_assoc.
Qed.

(** ** Properties of the buffering stage *)



(** X6: one window of the buffering stage.  When the stage has started
    and the values [vals] have arrived since, a tick makes it send the
    last [C - 1] of them, oldest first, empty its buffer and go on; when
    it takes cancellation instead, it sends the same values, closes its
    output and returns. *)
Theorem bufferAndSend_one_window
  (C : Z) (vals rest : list Z) (cl : bool) (done d' : chan bool) (b : bool)
  (fuel : nat) (s0 : agg) :
  1 <= C <= max_int -> (Z.to_nat C <= fuel)%nat ->
  bufferAndSend_start (mkChan (vals ++ rest) cl) done C = Ok s0 ->
  recv false done = Some (b, d') ->
  exists s1 s2,
    bufferAndSend_run fuel (repeat CaseIn (length vals) ++ [CaseTick]) s0 =
      Some (Ok s1) /\
    ag_out s1 = map Send (lastn (Z.to_nat (C - 1)) vals) /\
    ag_in s1 = mkChan rest cl /\ ag_status s1 = Running /\
    contents (ag_buffer s1) = [] /\
    bufferAndSend_run fuel (repeat CaseIn (length vals) ++ [CaseDone]) s0 =
      Some (Ok s2) /\
    ag_out s2 = map Send (lastn (Z.to_nat (C - 1)) vals) ++ [Close] /\
    ag_status s2 = Returned.
Proof.
  intros HC Hfuel Hstart Hdone.
  pose proof (NewRingBuffer_ok C ltac:(lia)) as Hnew.
  destruct (NewRingBuffer_wf C HC _ Hnew) as [Hwf Hc].
  unfold bufferAndSend_start in Hstart. rewrite Hnew in Hstart.
  simpl in Hstart. inversion Hstart; subst s0.
  destruct (bufferAndSend_window C HC fuel Hfuel vals rest cl done _ [] Hwf)
    as (rb1 & Hwf1 & Hc1 & Hrun1).
  destruct (bufferAndSend_window_done C HC fuel Hfuel vals rest cl done d' b _ []
              Hwf Hdone) as (rb2 & Hrun2).
  rewrite Hc in Hrun1, Hrun2. simpl in Hrun1, Hrun2.
  do 2 eexists.
  split; [exact Hrun1|]. split; [reflexivity|]. split; [reflexivity|].
  split; [reflexivity|]. split; [exact Hc1|].
  split; [exact Hrun2|]. split; reflexivity.
Qed.

Lemma bufferAndSend_one_window_witness :
  let done := mkChan [true] false in
  let s0 := mkAgg (mkChan ([1; 2; 3; 4] ++ [5]) false) done
              {| data := [0; 0; 0]; head := 0; tail := 0; size := 3 |}
              [] Running in
  (1 <= 3 <= max_int) /\
  bufferAndSend_start (mkChan ([1; 2; 3; 4] ++ [5]) false) done 3 = Ok s0 /\
  recv false done = Some (true, silent) /\
  exists s1 s2,
    bufferAndSend_run 3 (repeat CaseIn 4 ++ [CaseTick]) s0 = Some (Ok s1) /\
    ag_out s1 = [Send 3; Send 4] /\
    bufferAndSend_run 3 (repeat CaseIn 4 ++ [CaseDone]) s0 = Some (Ok s2) /\
    ag_out s2 = [Send 3; Send 4; Close].
Proof.
  intros done s0.
  assert (HC : 1 <= 3 <= max_int) by (unfold max_int; lia).
  assert (Hstart : bufferAndSend_start (mkChan ([1; 2; 3; 4] ++ [5]) false) done 3
                   = Ok s0) by reflexivity.
  split; [exact HC|]. split; [exact Hstart|]. split; [reflexivity|].
  destruct (bufferAndSend_one_window 3 [1; 2; 3; 4] [5] false done silent true 3 s0
              HC ltac:(simpl; lia) Hstart eq_refl)
    as (s1 & s2 & H1 & O1 & _ & _ & _ & H2 & O2 & _).
  exists s1, s2.
  split; [exact H1|]. split; [exact O1|]. split; [exact H2 | exact O2].
Defined.

(** X7: under any schedule, the values the buffering stage has sent,
    followed by those it still holds, are a subsequence of the values it
    has received: it sends nothing it did not receive, nothing twice and
    nothing out of the order of arrival; values lost on overflow are the
    only difference. *)
Theorem bufferAndSend_keeps_arrival_order
  (C : Z) (in_ : chan Z) (done : chan bool) (fuel : nat)
  (picks : list select_case) (s0 s : agg) :
  1 <= C <= max_int -> (Z.to_nat C <= fuel)%nat ->
  bufferAndSend_start in_ done C = Ok s0 ->
  bufferAndSend_run fuel picks s0 = Some (Ok s) ->
  sublist (sent (ag_out s) ++ contents (ag_buffer s))
    (arrivals (count_in picks) in_).
Proof.
  intros HC Hfuel Hstart Hrun.
  pose proof (NewRingBuffer_ok C ltac:(lia)) as Hnew.
  destruct (NewRingBuffer_wf C HC _ Hnew) as [Hwf Hc].
  unfold bufferAndSend_start in Hstart. rewrite Hnew in Hstart.
  simpl in Hstart. inversion Hstart; subst s0.
  destruct (bufferAndSend_run_sublist C HC fuel Hfuel picks
              (mkAgg in_ done _ [] Running) s eq_refl Hwf Hrun)
    as (mid & Hsent & Hsub).
  cbn [ag_out ag_buffer ag_in sent app] in Hsent, Hsub.
  rewrite Hc in Hsub. now rewrite Hsent.
Qed.

Lemma bufferAndSend_keeps_arrival_order_witness :
  let picks := [CaseIn; CaseIn; CaseIn; CaseTick; CaseIn] in
  let in_ := mkChan [1; 2; 3; 4; 5] false in
  (1 <= 3 <= max_int) /\
  exists s0 s,
    bufferAndSend_start in_ silent 3 = Ok s0 /\
    bufferAndSend_run 3 picks s0 = Some (Ok s) /\
    sent (ag_out s) ++ contents (ag_buffer s) = [2; 3; 4] /\
    sublist [2; 3; 4] [1; 2; 3; 4].
Proof.
  intros picks in_.
  assert (HC : 1 <= 3 <= max_int) by (unfold max_int; lia).
  split; [exact HC|].
  set (s0 := mkAgg in_ silent
               {| data := [0; 0; 0]; head := 0; tail := 0; size := 3 |} [] Running).
  set (s := mkAgg (mkChan [5] false) silent
              {| data := [4; 2; 3]; head := 0; tail := 1; size := 3 |}
              [Send 2; Send 3] Running).
  assert (H0 : bufferAndSend_start in_ silent 3 = Ok s0) by reflexivity.
  assert (H1 : bufferAndSend_run 3 picks s0 = Some (Ok s)) by reflexivity.
  exists s0, s. split; [exact H0|]. split; [exact H1|]. split; [reflexivity|].
  exact (bufferAndSend_keeps_arrival_order 3 in_ silent 3 picks s0 s HC
           ltac:(simpl; lia) H0 H1).
Defined.

(** X8: nothing is lost when the ticker keeps up.  After the stage has
    started, if at most [C - 1] values arrive between two ticks, every
    value received is sent, in the order received, and the buffer is empty
    after each tick; a tick that finds nothing sends nothing. *)
Theorem bufferAndSend_loses_nothing_in_small_windows
  (C : Z) (ws : list (list Z)) (rest : list Z) (cl : bool) (done : chan bool)
  (fuel : nat) (s0 : agg) :
  1 <= C <= max_int -> (Z.to_nat C <= fuel)%nat ->
  bufferAndSend_start (mkChan (concat ws ++ rest) cl) done C = Ok s0 ->
  Forall (fun w => Z.of_nat (length w) <= C - 1) ws ->
  exists s,
    bufferAndSend_run fuel (tick_windows ws) s0 = Some (Ok s) /\
    ag_out s = map Send (concat ws) /\
    ag_in s = mkChan rest cl /\
    contents (ag_buffer s) = [] /\
    ag_status s = Running.
Proof.
  intros HC Hfuel Hstart Hfit.
  pose proof (NewRingBuffer_ok C ltac:(lia)) as Hnew.
  destruct (NewRingBuffer_wf C HC _ Hnew) as [Hwf Hc].
  unfold bufferAndSend_start in Hstart. rewrite Hnew in Hstart.
  simpl in Hstart. inversion Hstart; subst s0.
  destruct (bufferAndSend_windows_fit C HC fuel Hfuel ws rest cl done _ []
              Hwf Hc Hfit) as (rb' & _ & Hc' & Hrun).
  eexists.
  split; [exact Hrun|]. split; [reflexivity|]. split; [reflexivity|].
  split; [exact Hc' | reflexivity].
Qed.

Lemma bufferAndSend_loses_nothing_in_small_windows_witness :
  let ws := [[3; 6]; []; [9]] in
  let s0 := mkAgg (mkChan (concat ws ++ [12]) false) silent
              {| data := [0; 0; 0]; head := 0; tail := 0; size := 3 |}
              [] Running in
  (1 <= 3 <= max_int) /\
  bufferAndSend_start (mkChan (concat ws ++ [12]) false) silent 3 = Ok s0 /\
  Forall (fun w => Z.of_nat (length w) <= 3 - 1) ws /\
  exists s,
    bufferAndSend_run 3 (tick_windows ws) s0 = Some (Ok s) /\
    ag_out s = [Send 3; Send 6; Send 9].
Proof.
  intros ws s0.
  assert (HC : 1 <= 3 <= max_int) by (unfold max_int; lia).
  assert (Hstart : bufferAndSend_start (mkChan (concat ws ++ [12]) false) silent 3
                   = Ok s0) by reflexivity.
  assert (Hfit : Forall (fun w => Z.of_nat (length w) <= 3 - 1) ws).
  { repeat constructor; simpl; lia. }
  split; [exact HC|]. split; [exact Hstart|]. split; [exact Hfit|].
  destruct (bufferAndSend_loses_nothing_in_small_windows 3 ws [12] false silent 3 s0
              HC ltac:(simpl; lia) Hstart Hfit) as (s & H1 & O & _).
  exists s. split; [exact H1 | exact O].
Defined.

(** X9: once its upstream channel is closed and drained, every receive
    of the buffering stage pushes a 0.  After [k] such receives the buffer
    holds the last [C - 1] of its former values followed by [k] zeros, and
    the next tick sends them, zeros included. *)
Theorem bufferAndSend_closed_upstream_fills_with_zeros
  (C : Z) (rb : RingBuffer) (done : chan bool) (out : list action)
  (k fuel : nat) :
  1 <= C <= max_int -> reachable C rb -> (Z.to_nat C <= fuel)%nat ->
  exists rb',
    bufferAndSend_run fuel (repeat CaseIn k)
      (mkAgg (mkChan [] true) done rb out Running) =
    Some (Ok (mkAgg (mkChan [] true) done rb' out Running)) /\
    contents rb' = lastn (Z.to_nat (C - 1)) (contents rb ++ repeat 0 k) /\
    bufferAndSend_iter fuel CaseTick (mkAgg (mkChan [] true) done rb' out Running) =
    Some (Ok (mkAgg (mkChan [] true) done (emptied rb')
                (out ++ map Send (lastn (Z.to_nat (C - 1)) (contents rb ++ repeat 0 k)))
                Running)).
Proof.
  intros HC Hr Hfuel.
  assert (Hwf : wf C rb) by now apply reachable_wf.
  destruct (arrivals_closed k) as [Harr Haft].
  destruct (bufferAndSend_run_receives C HC fuel Hfuel k (mkChan [] true) done rb out Hwf)
    as (rb' & Hp & Hwf' & Hrun); [now rewrite Harr, repeat_length|].
  rewrite Harr in Hp. rewrite Haft in Hrun.
  destruct (push_all_spec C HC (repeat 0 k) rb Hwf) as (rb2 & Hp2 & _ & Hc).
  assert (rb2 = rb') as -> by congruence.
  exists rb'. split; [exact Hrun|]. split; [exact Hc|].
  rewrite (bufferAndSend_iter_tick C HC fuel Hfuel) by done. now rewrite Hc.
Qed.

Lemma bufferAndSend_closed_upstream_fills_with_zeros_witness :
  let rb := {| data := [3; 9; 0; 0; 0]; head := 0; tail := 2; size := 5 |} in
  (1 <= 5 <= max_int) /\ reachable 5 rb /\
  exists rb',
    bufferAndSend_run 5 (repeat CaseIn 3)
      (mkAgg (mkChan [] true) silent rb [] Running) =
    Some (Ok (mkAgg (mkChan [] true) silent rb' [] Running)) /\
    contents rb' = [9; 0; 0; 0].
Proof.
  intros rb.
  assert (HC : 1 <= 5 <= max_int) by (unfold max_int; lia).
  assert (Hr : reachable 5 rb).
  { apply (reach_push 5 9 {| data := [3; 0; 0; 0; 0]; head := 0; tail := 1; size := 5 |});
      [|reflexivity].
    apply (reach_push 5 3 {| data := [0; 0; 0; 0; 0]; head := 0; tail := 0; size := 5 |});
      [|reflexivity].
    apply reach_new. reflexivity. }
  split; [exact HC|]. split; [exact Hr|].
  destruct (bufferAndSend_closed_upstream_fills_with_zeros 5 rb silent [] 3 5
              HC Hr ltac:(simpl; lia)) as (rb' & Hrun & Hc & _).
  exists rb'. split; [exact Hrun|]. rewrite Hc. reflexivity.
Defined.

(** X10: the two filters in a row, the second fed with what the first
    has sent, let through exactly the values [n > 0] with [n mod 3 = 0],
    in the order of the input. *)
Theorem two_filters_pass_positive_multiples_of_3 (ns : list Z) (cl : bool) :
  exists s1 s2,
    filterNegative (repeat CaseIn (length ns)) (start (mkChan ns cl) silent)
      = Some s1 /\
    filterNotDivisibleBy3 (repeat CaseIn (length (sent (st_out s1))))
      (start (downstream (st_out s1)) silent) = Some s2 /\
    sent (st_out s2) = List.filter passes_both ns /\
    (forall n, In n (sent (st_out s2)) <-> In n ns /\ 0 < n /\ n mod 3 = 0).
Proof.
  do 2 eexists.
  split; [apply filter_run_all|]. cbn [st_out app].
  rewrite downstream_map_Send, sent_map_Send.
  split; [apply filter_run_all|]. cbn [st_out app].
  rewrite sent_map_Send, filter_filter_andb.
  split; [reflexivity|].
  intros n. fold passes_both.
  change (fun x => isNonNegative x && keepMultipleOfThreeExcludingZero x)
    with passes_both.
  rewrite filter_In, passes_both_spec. reflexivity.
Qed.

(** X11: under any schedule, [main] prints the values it has received
    from [pipelineOut], in the order received, and nothing else until it
    takes an interrupt; it then prints the farewell, sends on [done] and
    closes it.  As long as no interrupt is delivered it does not return
    and leaves [done] alone. *)
Theorem main_prints_in_order
  (picks : list main_case) (pout : chan Z) (intr : chan (option signal))
  (s : mainst) :
  main_run picks (mkMain pout intr [] Running) = Some s ->
  m_trace s = map Printf (arrivals (count_out picks) pout) ++ farewell (m_status s) /\
  (recv None intr = None -> m_status s = Running).
Proof.
  intros Hrun. split.
  - now apply main_run_prints in Hrun.
  - intros Hi. now apply main_run_no_interrupt in Hrun.
Qed.

Lemma main_prints_in_order_witness :
  let picks := [CaseOut; CaseOut; CaseInterrupt] in
  let pout := mkChan [3; 9; 6] false in
  let intr := mkChan [Some SIGTERM] false in
  exists s,
    main_run picks (mkMain pout intr [] Running) = Some s /\
    m_trace s = [Printf 3; Printf 9; PrintlnBye; SendDone true; CloseDone].
Proof.
  intros picks pout intr.
  set (s := mkMain (mkChan [6] false) silent
              [Printf 3; Printf 9; PrintlnBye; SendDone true; CloseDone] Returned).
  assert (H : main_run picks (mkMain pout intr [] Running) = Some s) by reflexivity.
  exists s. split; [exact H|].
  exact (proj1 (main_prints_in_order picks pout intr s H)).
Defined.

(** X12: [main] does not tell a closed [pipelineOut] from a value: once
    the channel is closed and drained each receive prints a 0, and the
    loop goes on. *)
Theorem main_prints_zeros_after_close
  (k : nat) (intr : chan (option signal)) (tr : list main_action) :
  main_run (repeat CaseOut k) (mkMain (mkChan [] true) intr tr Running) =
  Some (mkMain (mkChan [] true) intr (tr ++ repeat (Printf 0) k) Running).
Proof.
  revert tr. induction k as [|k IH]; intros tr.
  - simpl. now rewrite app_nil_r.
  - simpl. unfold main_iter. simpl. rewrite IH. now rewrite <- app_assoc.
Qed.

(** X13: the whole pipeline with the buffer size of the program, 5.
    When the values [ns] have passed the two filters and reached the
    buffering stage before the first tick, what [main] prints after that
    tick is the last four positive multiples of 3 among [ns], in the order
    of the input. *)
Theorem pipeline_prints_last_four_positive_multiples_of_3
  (ns : list Z) (cl : bool) (fuel : nat) :
  (5 <= fuel)%nat ->
  exists (s1 s2 : stage) (a0 a1 : agg) (m : mainst),
    filterNegative (repeat CaseIn (length ns)) (start (mkChan ns cl) silent)
      = Some s1 /\
    filterNotDivisibleBy3 (repeat CaseIn (length (sent (st_out s1))))
      (start (downstream (st_out s1)) silent) = Some s2 /\
    bufferAndSend_start (downstream (st_out s2)) silent defaultBufferSize = Ok a0 /\
    bufferAndSend_run fuel
      (repeat CaseIn (length (sent (st_out s2))) ++ [CaseTick]) a0 = Some (Ok a1) /\
    main_run (repeat CaseOut (length (sent (ag_out a1))))
      (mkMain (downstream (ag_out a1)) silent [] Running) = Some m /\
    m_trace m = map Printf (lastn 4 (List.filter passes_both ns)) /\
    m_status m = Running.
Proof.
  intros Hfuel.
  assert (HC : 1 <= defaultBufferSize <= max_int)
    by (unfold defaultBufferSize, max_int; lia).
  pose proof (NewRingBuffer_ok defaultBufferSize ltac:(lia)) as Hnew.
  destruct (NewRingBuffer_wf defaultBufferSize HC _ Hnew) as [Hwf Hc].
  set (vals := List.filter passes_both ns).
  destruct (bufferAndSend_window defaultBufferSize HC fuel Hfuel vals [] false
              silent _ [] Hwf) as (rb1 & _ & _ & Hrun).
  rewrite Hc, app_nil_r in Hrun. simpl app in Hrun.
  do 5 eexists.
  split; [apply filter_run_all|]. cbn [st_out app].
  rewrite downstream_map_Send, sent_map_Send.
  split; [apply filter_run_all|]. cbn [st_out app].
  rewrite downstream_map_Send, sent_map_Send, filter_filter_andb.
  split; [unfold bufferAndSend_start; rewrite Hnew; reflexivity|].
  split; [exact Hrun|]. cbn [ag_out].
  rewrite downstream_map_Send, sent_map_Send.
  split; [apply main_run_all|].
  split; reflexivity.
Qed.

Lemma pipeline_prints_last_four_positive_multiples_of_3_witness :
  (5 <= 5)%nat /\
  exists m,
    m_trace m = [Printf 9; Printf 12; Printf 15; Printf 18] /\
    m_trace m =
      map Printf (lastn 4 (List.filter passes_both [3; -3; 6; 0; 9; 12; 15; 2; 18])).
Proof.
  split; [lia|].
  destruct (pipeline_prints_last_four_positive_multiples_of_3
              [3; -3; 6; 0; 9; 12; 15; 2; 18] true 5 ltac:(lia))
    as (_ & _ & _ & _ & m & _ & _ & _ & _ & _ & Hm & _).
  exists m. split; [rewrite Hm; reflexivity | exact Hm].
Defined.

(** ** The reader *)

Section ReaderFacts.

Variable TrimSpace : String.string -> String.string.
Variable Atoi : String.string -> option Z.

Lemma reader_loop_sent lines :
  reader_sent (reader_loop TrimSpace Atoi lines) =
  omap (fun l => Atoi (TrimSpace l)) lines.
Proof.
  induction lines as [|l ls IH]; [done|]. simpl.
  destruct (Atoi (TrimSpace l)); simpl; now rewrite IH.
Qed.

Lemma reader_loop_length lines :
  length (reader_loop TrimSpace Atoi lines) = length lines.
Proof.
  induction lines as [|l ls IH]; [done|]. simpl.
  destruct (Atoi (TrimSpace l)); simpl; now rewrite IH.
Qed.

Lemma reader_loop_counts lines :
  (length (reader_sent (reader_loop TrimSpace Atoi lines))
   + length (List.filter is_bad_input (reader_loop TrimSpace Atoi lines))
   = length lines)%nat.
Proof.
  induction lines as [|l ls IH]; [done|]. simpl.
  destruct (Atoi (TrimSpace l)); simpl; lia.
Qed.

Lemma reader_loop_no_close lines :
  existsb is_read_close (reader_loop TrimSpace Atoi lines) = false.
Proof.
  induction lines as [|l ls IH]; [done|]. simpl.
  destruct (Atoi (TrimSpace l)); simpl; exact IH.
Qed.

Lemma reader_sent_app tr1 tr2 :
  reader_sent (tr1 ++ tr2) = reader_sent tr1 ++ reader_sent tr2.
Proof.
  induction tr1 as [|[n| | |] tr1 IH]; simpl; try done. now rewrite IH.
Qed.

End ReaderFacts.

(** X14: the reader sends on [input] the numbers of the lines that
    parse, in the order of the lines; for every other line it prints one
    complaint and goes on with the next; at the end of the input it prints
    the closing line and closes [input], once and as the last thing it
    does, also when there was no line at all. *)
Theorem reader_forwards_what_parses
  (TrimSpace : String.string -> String.string)
  (Atoi : String.string -> option Z) (lines : list String.string) :
  let tr := reader TrimSpace Atoi lines in
  reader_sent tr = omap (fun l => Atoi (TrimSpace l)) lines /\
  (length (reader_sent tr) + length (List.filter is_bad_input tr)
   = length lines)%nat /\
  reader_input tr = mkChan (omap (fun l => Atoi (TrimSpace l)) lines) true /\
  exists body,
    tr = body ++ [ReadInputDone; ReadClose] /\
    length body = length lines /\
    existsb is_read_close body = false.
Proof.
  intros tr. subst tr. unfold reader.
  assert (Hsent : reader_sent (reader_loop TrimSpace Atoi lines
                               ++ [ReadInputDone; ReadClose])
                  = omap (fun l => Atoi (TrimSpace l)) lines).
  { rewrite reader_sent_app, reader_loop_sent. simpl. now rewrite app_nil_r. }
  split; [exact Hsent|]. split.
  { rewrite Hsent, <- (reader_loop_sent TrimSpace Atoi), List.filter_app. simpl.
    rewrite length_app. simpl.
    pose proof (reader_loop_counts TrimSpace Atoi lines). lia. }
  split.
  { unfold reader_input. rewrite Hsent. f_equal.
    rewrite existsb_app. simpl. apply orb_true_r. }
  exists (reader_loop TrimSpace Atoi lines).
  split; [reflexivity|].
  split; [apply reader_loop_length | apply reader_loop_no_close].
Qed.
